(** * grep-ast-go: scope indexing, context expansion and rendering

    A shallow embedding of [grepast.go].  Go's [int] is modelled by [Z]
    (every line number handled here stays far below 2^63), a
    [map[int]struct{}] by [gset Z], the highlight map by [gmap Z string],
    slices by lists, and a Go string by a byte string.  Tree-sitter rows
    are unsigned, hence [nat].

    Two kinds of behaviour that Go leaves to the runtime are made explicit:
    - a run-time panic (index out of range, [regexp.MustCompile]) is a
      value of type [error];
    - the order in which [range] walks a map is not specified by Go, so
      every such loop walks the keys in the order chosen by an [IterOrder]
      oracle, which may be any permutation. *)

From Stdlib Require Import ZArith Lia Ascii.
From stdpp Require Import gmap strings list sorting pretty.

Local Open Scope Z_scope.

(** ** Syntax nodes

    The parse tree is owned by the parsing backend.  The engine reads a
    node's start row, its end row and its named children.  The source
    enumerates children with
    [for i := 0; i < node.ChildCount(); i++ { node.NamedChild(i) }] and
    skips [nil]: since a node has at most [ChildCount] named children and
    [NamedChild] is [nil] beyond them, the loop visits exactly the named
    children, in order. *)
#[local] Set Warnings "-register-all".
Inductive Node : Type :=
  mkNode (startRow endRow : nat) (namedChildren : list Node).

Definition startRow (n : Node) : nat := let 'mkNode s _ _ := n in s.
Definition endRow (n : Node) : nat := let 'mkNode _ e _ := n in e.
Definition namedChildren (n : Node) : list Node := let 'mkNode _ _ c := n in c.

(** [int(node.StartPosition().Row)], [int(node.EndPosition().Row)] *)
Definition startLineOf (n : Node) : Z := Z.of_nat (startRow n).
Definition endLineOf (n : Node) : Z := Z.of_nat (endRow n).
Definition sizeOf (n : Node) : Z := endLineOf n - startLineOf n.

(** ** Errors *)
Inductive error : Type :=
  | IndexOutOfRange   (* Go run-time panic on a slice index *)
  | InvalidPattern    (* panic of regexp.MustCompile *)
  | OutOfFuel.        (* the model's recursion bound was too small *)

Inductive res (A : Type) : Type :=
  | Ok (a : A)
  | Err (e : error).
Arguments Ok {A} a.
Arguments Err {A} e.

Definition bind {A B} (m : res A) (k : A → res B) : res B :=
  match m with Ok a => k a | Err e => Err e end.

Notation "'do' x <- m ; k" := (bind m (fun x => k))
  (at level 10, x name, m at level 100, k at level 200).

(** Monadic left fold: the body of a [for ... range] loop that may panic. *)
Fixpoint foldM {A B} (f : A → B → res A) (l : list B) (a : A) : res A :=
  match l with
  | [] => Ok a
  | b :: l' => do a' <- f a b; foldM f l' a'
  end.

(** ** Map iteration order

    One constructor per [range] loop over a map in the source. *)
Inductive Site : Type :=
  | SiteAddLOI          (* AddLinesOfInterest: range lineNums *)
  | SiteSeed            (* AddContext: range tc.linesOfInterest (seed) *)
  | SitePad             (* AddContext: range tc.showLines (padding) *)
  | SiteParents         (* AddContext: range tc.linesOfInterest (parents) *)
  | SiteChildren        (* AddContext: range tc.linesOfInterest (children) *)
  | SiteCopy            (* closeSmallGaps: range tc.showLines (copy) *)
  | SiteKeys            (* mapKeysSorted: range m *)
  | SiteScopes (i : Z). (* addParentScopes: range tc.scopes[i] *)

Record IterOrder : Type := {
  order : Site → list Z → list Z;
  order_perm : ∀ s l, order s l ≡ₚ l
}.

(** The keys of [m] in the order the runtime picks at [site]. *)
Definition rangeKeys (o : IterOrder) (site : Site) (m : gset Z) : list Z :=
  order o site (elements m).

(** ** The analysis context *)
Record TreeContext : Type := mkTC {
  filename : string;
  source : string;
  color : bool;
  verbose : bool;
  lineNumber : bool;
  lastLine : bool;
  margin : Z;
  markLOIs : bool;
  headerMax : Z;
  loiPad : Z;
  showTopOfFileParentScope : bool;
  parentContext : bool;
  childContext : bool;
  lines : list string;
  numLines : Z;
  outputLines : gmap Z string;
  scopes : list (gset Z);
  header : list (list Z);
  nodes : list (list Node);
  showLines : gset Z;
  linesOfInterest : gset Z;
  doneParentScopes : gset Z
}.

Record TreeContextOptions : Type := mkOptions {
  Color : bool;
  Verbose : bool;
  ShowLineNumber : bool;
  ShowParentContext : bool;
  ShowChildContext : bool;
  ShowLastLine : bool;
  MarginPadding : Z;
  MarkLinesOfInterest : bool;
  HeaderMax : Z;
  ShowTopOfFileParentScope : bool;
  LinesOfInterestPadding : Z
}.

(** Field updates ([tc.f = v]). *)
Definition set_outputLines (v : gmap Z string) (tc : TreeContext) : TreeContext :=
  mkTC (filename tc) (source tc) (color tc) (verbose tc) (lineNumber tc)
    (lastLine tc) (margin tc) (markLOIs tc) (headerMax tc) (loiPad tc)
    (showTopOfFileParentScope tc) (parentContext tc) (childContext tc)
    (lines tc) (numLines tc) v (scopes tc) (header tc) (nodes tc)
    (showLines tc) (linesOfInterest tc) (doneParentScopes tc).

Definition set_scopes (v : list (gset Z)) (tc : TreeContext) : TreeContext :=
  mkTC (filename tc) (source tc) (color tc) (verbose tc) (lineNumber tc)
    (lastLine tc) (margin tc) (markLOIs tc) (headerMax tc) (loiPad tc)
    (showTopOfFileParentScope tc) (parentContext tc) (childContext tc)
    (lines tc) (numLines tc) (outputLines tc) v (header tc) (nodes tc)
    (showLines tc) (linesOfInterest tc) (doneParentScopes tc).

Definition set_header (v : list (list Z)) (tc : TreeContext) : TreeContext :=
  mkTC (filename tc) (source tc) (color tc) (verbose tc) (lineNumber tc)
    (lastLine tc) (margin tc) (markLOIs tc) (headerMax tc) (loiPad tc)
    (showTopOfFileParentScope tc) (parentContext tc) (childContext tc)
    (lines tc) (numLines tc) (outputLines tc) (scopes tc) v (nodes tc)
    (showLines tc) (linesOfInterest tc) (doneParentScopes tc).

Definition set_nodes (v : list (list Node)) (tc : TreeContext) : TreeContext :=
  mkTC (filename tc) (source tc) (color tc) (verbose tc) (lineNumber tc)
    (lastLine tc) (margin tc) (markLOIs tc) (headerMax tc) (loiPad tc)
    (showTopOfFileParentScope tc) (parentContext tc) (childContext tc)
    (lines tc) (numLines tc) (outputLines tc) (scopes tc) (header tc) v
    (showLines tc) (linesOfInterest tc) (doneParentScopes tc).

Definition set_showLines (v : gset Z) (tc : TreeContext) : TreeContext :=
  mkTC (filename tc) (source tc) (color tc) (verbose tc) (lineNumber tc)
    (lastLine tc) (margin tc) (markLOIs tc) (headerMax tc) (loiPad tc)
    (showTopOfFileParentScope tc) (parentContext tc) (childContext tc)
    (lines tc) (numLines tc) (outputLines tc) (scopes tc) (header tc) (nodes tc)
    v (linesOfInterest tc) (doneParentScopes tc).

Definition set_linesOfInterest (v : gset Z) (tc : TreeContext) : TreeContext :=
  mkTC (filename tc) (source tc) (color tc) (verbose tc) (lineNumber tc)
    (lastLine tc) (margin tc) (markLOIs tc) (headerMax tc) (loiPad tc)
    (showTopOfFileParentScope tc) (parentContext tc) (childContext tc)
    (lines tc) (numLines tc) (outputLines tc) (scopes tc) (header tc) (nodes tc)
    (showLines tc) v (doneParentScopes tc).

Definition set_doneParentScopes (v : gset Z) (tc : TreeContext) : TreeContext :=
  mkTC (filename tc) (source tc) (color tc) (verbose tc) (lineNumber tc)
    (lastLine tc) (margin tc) (markLOIs tc) (headerMax tc) (loiPad tc)
    (showTopOfFileParentScope tc) (parentContext tc) (childContext tc)
    (lines tc) (numLines tc) (outputLines tc) (scopes tc) (header tc) (nodes tc)
    (showLines tc) (linesOfInterest tc) v.

(** [len(s)] as a Go [int]. *)
Definition len {A} (l : list A) : Z := Z.of_nat (length l).

(** [tc.showLines[ln] = struct{}{}] *)
Definition show (ln : Z) (tc : TreeContext) : TreeContext :=
  set_showLines ({[ln]} ∪ showLines tc) tc.

(** [for ln := a; ln < b; ln++ { tc.showLines[ln] = struct{}{} }] *)
Definition showRange (a b : Z) (tc : TreeContext) : TreeContext :=
  foldl (fun tc ln => show ln tc) tc (seqZ a (b - a)).

(** ** Scope indexer *)

(** The loop
    [for i := startLine; i <= endLine && i < len(tc.scopes); i++
       { tc.scopes[i][startLine] = struct{}{} }]. *)
Definition markScopes (startLine endLine : Z) (sc : list (gset Z)) : list (gset Z) :=
  foldl (fun sc i => alter (fun S => {[startLine]} ∪ S) (Z.to_nat i) sc) sc
        (seqZ startLine (Z.min (endLine + 1) (len sc) - startLine)).

(** The body of [walkTree] at one node, before it descends: record the
    node at its start line, overwrite the header candidate of that line
    when the node spans more than one line, and mark the lines it spans. *)
Definition visit (tc : TreeContext) (node : Node) : TreeContext :=
  let startLine := startLineOf node in
  let endLine := endLineOf node in
  let size := endLine - startLine in
  let tc := set_nodes (alter (fun ns => ns ++ [node]) (Z.to_nat startLine) (nodes tc)) tc in
  let tc :=
    if 0 <? size then
      if startLine <? len (header tc)
      then set_header (<[Z.to_nat startLine := [size; startLine; endLine]]> (header tc)) tc
      else tc
    else tc in
  set_scopes (markScopes startLine endLine (scopes tc)) tc.

(** [walkTree]; the pair of rows it returns is ignored by every caller and
    is not modelled. *)
Fixpoint walkTree (node : Node) (tc : TreeContext) : TreeContext :=
  if (startLineOf node <? 0) || (len (nodes tc) <=? startLineOf node) then tc
  else
    let tc := visit tc node in
    match node with
    | mkNode _ _ children =>
        (fix walkChildren (cs : list Node) (tc : TreeContext) : TreeContext :=
           match cs with
           | [] => tc
           | child :: cs' => walkChildren cs' (walkTree child tc)
           end) children tc
    end.

(** One header slot of [postWalkProcessing]. *)
Definition finalizeHeader (hmax i : Z) (headerSlice : list Z) : list Z :=
  match headerSlice with
  | size :: headStart :: rest =>
      let headEnd := match rest with e :: _ => e | [] => headStart + 1 end in
      let headEnd := if hmax <? size then headStart + hmax else headEnd in
      [headStart; headEnd]
  | _ => [i; i + 1]
  end.

(** [postWalkProcessing]: the loop [for i := 0; i < tc.numLines; i++]
    reads and writes [tc.header[i]], which panics when the slice is
    shorter than [numLines].  The verbose trace only prints and is not
    modelled. *)
Definition postWalkProcessing (tc : TreeContext) : res TreeContext :=
  foldM (fun tc i =>
           match header tc !! Z.to_nat i with
           | None => Err IndexOutOfRange
           | Some headerSlice =>
               Ok (set_header (<[Z.to_nat i := finalizeHeader (headerMax tc) i headerSlice]> (header tc)) tc)
           end)
        (seqZ 0 (numLines tc)) tc.

(** [strings.Split(s, "\n")] *)
Fixpoint splitLines (s : string) : list string :=
  match s with
  | EmptyString => [EmptyString]
  | String c s' =>
      if Ascii.eqb c "010"%char then EmptyString :: splitLines s'
      else match splitLines s' with
           | l :: ls => String c l :: ls
           | [] => [String c EmptyString]
           end
  end.

(** The context [NewTreeContext] allocates before it walks the tree:
    the three per-line slices have [len(lines) + 1] slots and every header
    slot starts as [[0, 0]]. *)
Definition emptyContext (fname src : string) (options : TreeContextOptions) : TreeContext :=
  let lns := splitLines src in
  let n := length lns in
  mkTC fname src (Color options) (Verbose options) (ShowLineNumber options)
    (ShowLastLine options) (MarginPadding options) (MarkLinesOfInterest options)
    (HeaderMax options) (LinesOfInterestPadding options)
    (ShowTopOfFileParentScope options) (ShowParentContext options)
    (ShowChildContext options) lns (Z.of_nat n + 1) ∅
    (replicate (S n) ∅) (replicate (S n) [0; 0]) (replicate (S n) [])
    ∅ ∅ ∅.

(** [NewTreeContext] from the point where the parsing backend has
    returned the root node ([rootNode]); language detection and parsing
    are external. *)
Definition NewTreeContext (fname src : string) (options : TreeContextOptions)
    (rootNode : Node) : res TreeContext :=
  postWalkProcessing (walkTree rootNode (emptyContext fname src options)).

(** ** Helper functions *)

(** The in-place exchange sort shared by [mapKeysSorted] and
    [sortNodesBySize]:
    [for i { for j := i+1 { if before(out[j], out[i]) { swap } } }].
    [sift before x rest] is one run of the inner loop: [x] is [out[i]],
    [rest] is [out[i+1:]]; it returns the final [out[i]] and the rewritten
    tail. *)
Fixpoint sift {A} (before : A → A → bool) (x : A) (rest : list A) : A * list A :=
  match rest with
  | [] => (x, [])
  | y :: r =>
      if before y x
      then let '(m, r') := sift before y r in (m, x :: r')
      else let '(m, r') := sift before x r in (m, y :: r')
  end.

Fixpoint exchangeSortAux {A} (before : A → A → bool) (n : nat) (out : list A) : list A :=
  match n, out with
  | S n', x :: rest =>
      let '(m, rest') := sift before x rest in
      m :: exchangeSortAux before n' rest'
  | _, _ => out
  end.

Definition exchangeSort {A} (before : A → A → bool) (out : list A) : list A :=
  exchangeSortAux before (length out) out.

(** [mapKeysSorted]: collect the keys in map order, then sort ascending
    (swap when [out[j] < out[i]]). *)
Definition mapKeysSorted (o : IterOrder) (m : gset Z) : list Z :=
  exchangeSort Z.ltb (rangeKeys o SiteKeys m).

(** [sortNodesBySize]: descending span (swap when [sizeJ > sizeI]). *)
Definition sortNodesBySize (ns : list Node) : list Node :=
  exchangeSort (fun nj ni => sizeOf ni <? sizeOf nj) ns.

(** [findAllChildren]: the node and all its named descendants, pre-order. *)
Fixpoint findAllChildren (node : Node) : list Node :=
  match node with
  | mkNode _ _ children =>
      node :: (fix go (cs : list Node) : list Node :=
                 match cs with
                 | [] => []
                 | child :: cs' => findAllChildren child ++ go cs'
                 end) children
  end.

(** [getLastLineOfScope] *)
Definition getLastLineOfScope (tc : TreeContext) (i : Z) : Z :=
  if (i <? 0) || (len (nodes tc) <=? i) then i
  else match nodes tc !! Z.to_nat i with
       | None | Some [] => i
       | Some ns =>
           foldl (fun lastLine node =>
                    if lastLine <? endLineOf node then endLineOf node else lastLine)
                 0 ns
       end.

(** [strings.TrimSpace(s) == ""]: [s] is a sequence of UTF-8 encoded
    white-space runes ([unicode.IsSpace]): U+0009..U+000D, U+0020, U+0085,
    U+00A0, U+1680, U+2000..U+200A, U+2028, U+2029, U+202F, U+205F,
    U+3000.  Any other byte sequence (ill-formed ones decode to U+FFFD)
    holds a rune that is not trimmed. *)
Fixpoint isBlank (s : string) : bool :=
  match s with
  | EmptyString => true
  | String a s1 =>
      let x := N_of_ascii a in
      if ((9 <=? x) && (x <=? 13) || (x =? 32))%N then isBlank s1
      else
        match s1 with
        | EmptyString => false
        | String b s2 =>
            let y := N_of_ascii b in
            if ((x =? 194) && ((y =? 133) || (y =? 160)))%N then isBlank s2
            else
              match s2 with
              | EmptyString => false
              | String c s3 =>
                  let z := N_of_ascii c in
                  if ((x =? 225) && (y =? 154) && (z =? 128)
                      || (x =? 226) && (y =? 128)
                         && ((128 <=? z) && (z <=? 138) || (z =? 168) || (z =? 169) || (z =? 175))
                      || (x =? 226) && (y =? 129) && (z =? 159)
                      || (x =? 227) && (y =? 128) && (z =? 128))%N
                  then isBlank s3
                  else false
              end
        end
  end.

(** ** Context expander *)

(** Recursion bound for [addParentScopes]: every call that goes on marks
    a fresh index below [len(tc.scopes)] as done, so the nesting depth
    never exceeds [len(tc.scopes) + 1]. *)
Definition fuelOf (tc : TreeContext) : nat := S (length (scopes tc)).

(** The header reveal of [addParentScopes] for one scope [lineNum]. *)
Definition revealHeader (headerSlice : list Z) (tc : TreeContext) : TreeContext :=
  match headerSlice with
  | headStart :: headEnd :: _ =>
      if (0 <? headStart) || showTopOfFileParentScope tc
      then showRange headStart (Z.min headEnd (numLines tc)) tc
      else tc
  | _ => tc
  end.

(** The body of the loop of [addParentScopes] over [tc.scopes[i]], with
    the recursive call [recurse]; [tc.header[lineNum]] is not
    bounds-checked. *)
Definition scopeStep (recurse : Z → TreeContext → res TreeContext)
    (tc : TreeContext) (lineNum : Z) : res TreeContext :=
  if lineNum <? 0 then Err IndexOutOfRange
  else match header tc !! Z.to_nat lineNum with
       | None => Err IndexOutOfRange
       | Some headerSlice =>
           if 2 <=? len headerSlice then
             let tc := revealHeader headerSlice tc in
             if lastLine tc
             then recurse (getLastLineOfScope tc lineNum) tc
             else Ok tc
           else Ok tc
       end.

(** [addParentScopes] *)
Fixpoint addParentScopes (o : IterOrder) (fuel : nat) (i : Z) (tc : TreeContext)
    : res TreeContext :=
  if (i <? 0) || (len (scopes tc) <=? i) then Ok tc
  else if bool_decide (i ∈ doneParentScopes tc) then Ok tc
  else
    match fuel with
    | O => Err OutOfFuel
    | S fuel' =>
        let tc := set_doneParentScopes ({[i]} ∪ doneParentScopes tc) tc in
        foldM (scopeStep (addParentScopes o fuel'))
              (rangeKeys o (SiteScopes i) (default ∅ (scopes tc !! Z.to_nat i))) tc
    end.

(** [int(float64(size)*0.10 + 0.5)] clamped to [5, 25].  For
    [0 <= size < 2^53] the float expression is [floor((size + 5) / 10)]:
    the product exceeds the exact tenth by less than one unit in the last
    place and never falls below a representable half. *)
Definition computedMax (size : Z) : Z :=
  let c := (size + 5) / 10 in
  if c <? 5 then 5 else if 25 <? c then 25 else c.

(** The loop over the sorted descendants, with its [break]. *)
Fixpoint childLoop (o : IterOrder) (limit : Z) (children : list Node)
    (tc : TreeContext) : res TreeContext :=
  match children with
  | [] => Ok tc
  | child :: rest =>
      if limit <? Z.of_nat (size (showLines tc)) then Ok tc
      else do tc' <- addParentScopes o (fuelOf tc) (startLineOf child) tc;
           childLoop o limit rest tc'
  end.

(** [addChildContext] *)
Definition addChildContext (o : IterOrder) (i : Z) (tc : TreeContext) : res TreeContext :=
  if (i <? 0) || (len (nodes tc) <=? i) then Ok tc
  else
    let here := default [] (nodes tc !! Z.to_nat i) in
    if len here =? 0 then Ok tc
    else
      let last := getLastLineOfScope tc i in
      let size := last - i in
      if size <? 0 then Ok tc
      else if size <? 5 then Ok (showRange i (Z.min (last + 1) (numLines tc)) tc)
      else
        let children := sortNodesBySize (flat_map findAllChildren here) in
        let currentlyShowing := Z.of_nat (base.size (showLines tc)) in
        childLoop o (currentlyShowing + computedMax size) children tc.

(** The padding pass of [AddContext]. *)
Definition padLines (o : IterOrder) (tc : TreeContext) : TreeContext :=
  let toAdd :=
    flat_map (fun line =>
                filter (fun nl => ¬ (nl < 0 ∨ numLines tc ≤ nl))
                       (seqZ (line - loiPad tc) (2 * loiPad tc + 1)))
             (rangeKeys o SitePad (showLines tc)) in
  foldl (fun tc x => show x tc) tc toAdd.

(** The gap loop of [closeSmallGaps] over [sortedShow]. *)
Fixpoint fillGaps (sortedShow : list Z) (closedShow : gset Z) : gset Z :=
  match sortedShow with
  | curr :: rest =>
      match rest with
      | next :: _ =>
          fillGaps rest (if next - curr =? 2 then {[curr + 1]} ∪ closedShow else closedShow)
      | [] => closedShow
      end
  | [] => closedShow
  end.

(** The blank-line loop of [closeSmallGaps]: [rest] is [tc.lines[i:]]. *)
Fixpoint pickBlanks (tc : TreeContext) (i : Z) (rest : list string)
    (closedShow : gset Z) : gset Z :=
  match rest with
  | [] => closedShow
  | line :: rest' =>
      pickBlanks tc (i + 1) rest'
        (if bool_decide (i ∈ closedShow)
            && (negb (isBlank line) && (i <? numLines tc - 2))
            && ((i + 1 <? len (lines tc))
                && isBlank (default EmptyString (lines tc !! Z.to_nat (i + 1))))
         then {[i + 1]} ∪ closedShow
         else closedShow)
  end.

(** [closeSmallGaps] *)
Definition closeSmallGaps (o : IterOrder) (tc : TreeContext) : TreeContext :=
  let closedShow := foldl (fun c k => {[k]} ∪ c) ∅ (rangeKeys o SiteCopy (showLines tc)) in
  let sortedShow := mapKeysSorted o (showLines tc) in
  let closedShow := fillGaps sortedShow closedShow in
  let closedShow := pickBlanks tc 0 (lines tc) closedShow in
  set_showLines closedShow tc.

(** The passes of [AddContext], in source order. *)
Definition seedPass (o : IterOrder) (tc : TreeContext) : TreeContext :=
  foldl (fun tc line => show line tc) tc (rangeKeys o SiteSeed (linesOfInterest tc)).

Definition padPass (o : IterOrder) (tc : TreeContext) : TreeContext :=
  if 0 <? loiPad tc then padLines o tc else tc.

Definition lastLinePass (o : IterOrder) (tc : TreeContext) : res TreeContext :=
  if lastLine tc then
    let bottomLine := numLines tc - 2 in
    let tc := show bottomLine tc in
    addParentScopes o (fuelOf tc) bottomLine tc
  else Ok tc.

Definition parentPass (o : IterOrder) (tc : TreeContext) : res TreeContext :=
  if parentContext tc then
    foldM (fun tc i => addParentScopes o (fuelOf tc) i tc)
          (rangeKeys o SiteParents (linesOfInterest tc)) tc
  else Ok tc.

Definition childPass (o : IterOrder) (tc : TreeContext) : res TreeContext :=
  if childContext tc then
    foldM (fun tc i => addChildContext o i tc)
          (rangeKeys o SiteChildren (linesOfInterest tc)) tc
  else Ok tc.

Definition marginPass (tc : TreeContext) : TreeContext :=
  if 0 <? margin tc then showRange 0 (Z.min (margin tc) (numLines tc)) tc else tc.

(** [AddContext] *)
Definition AddContext (o : IterOrder) (tc : TreeContext) : res TreeContext :=
  if Z.of_nat (size (linesOfInterest tc)) =? 0 then Ok tc
  else
    let tc := seedPass o tc in
    let tc := padPass o tc in
    do tc <- lastLinePass o tc;
    do tc <- parentPass o tc;
    do tc <- childPass o tc;
    let tc := marginPass tc in
    Ok (closeSmallGaps o tc).

(** [AddLinesOfInterest] *)
Definition AddLinesOfInterest (o : IterOrder) (lineNums : gset Z) (tc : TreeContext)
    : TreeContext :=
  foldl (fun tc ln => set_linesOfInterest ({[ln]} ∪ linesOfInterest tc) tc) tc
        (rangeKeys o SiteAddLOI lineNums).

(** ** Match engine

    The regular-expression engine is external; [Grep] uses three of its
    operations. *)
Record RegexEngine : Type := {
  regex : Type;
  compile : string → option regex;                          (* regexp.Compile *)
  findStringIndex : regex → string → option (nat * nat);     (* re.FindStringIndex *)
  replaceAllStringFunc : regex → string → (string → string) → string
}.

Definition esc : string := String (ascii_of_nat 27) EmptyString.
Definition newline : string := String (ascii_of_nat 10) EmptyString.

(** The pattern handed to the compiler. *)
Definition effectivePattern (pat : string) (ignoreCase : bool) : string :=
  if ignoreCase then "(?i)" +:+ pat else pat.

(** The loop of [Grep] over [tc.lines[i:]]. *)
Fixpoint grepLines (E : RegexEngine) (re : regex E) (i : Z) (rest : list string)
    (found : gset Z) (tc : TreeContext) : gset Z * TreeContext :=
  match rest with
  | [] => (found, tc)
  | line :: rest' =>
      match findStringIndex E re line with
      | Some _ =>
          let tc :=
            if color tc then
              let highlighted :=
                replaceAllStringFunc E re line
                  (fun m => esc +:+ "[1;31m" +:+ m +:+ esc +:+ "[0m") in
              set_outputLines (<[i := highlighted]> (outputLines tc)) tc
            else tc in
          grepLines E re (i + 1) rest' ({[i]} ∪ found) tc
      | None => grepLines E re (i + 1) rest' found tc
      end
  end.

(** [Grep]: [regexp.MustCompile] panics on a pattern that does not
    compile, before the loop has run.  The result pairs what the call
    returns with the context it leaves behind. *)
Definition Grep (E : RegexEngine) (pat : string) (ignoreCase : bool) (tc : TreeContext)
    : res (gset Z) * TreeContext :=
  match compile E (effectivePattern pat ignoreCase) with
  | None => (Err InvalidPattern, tc)
  | Some re =>
      let '(found, tc') := grepLines E re 0 (lines tc) ∅ tc in
      (Ok found, tc')
  end.

(** ** Renderer *)

(** What one write to the [strings.Builder] holds. *)
Inductive Chunk : Type :=
  | ChunkReset                       (* the colour reset *)
  | ChunkEllipsis                    (* the marker of a hidden run *)
  | ChunkLine (i : Z) (text : string). (* source line [i], as printed *)

Definition ellipsisMarker : string := "⋮..." +:+ newline.

Definition renderChunk (c : Chunk) : string :=
  match c with
  | ChunkReset => esc +:+ "[0m" +:+ newline
  | ChunkEllipsis => ellipsisMarker
  | ChunkLine _ text => text
  end.

(** [lineOfInterestSpacer] *)
Definition lineOfInterestSpacer (tc : TreeContext) (i : Z) : string :=
  if bool_decide (i ∈ linesOfInterest tc) && markLOIs tc then
    if color tc then esc +:+ "[31m█" +:+ esc +:+ "[0m" else "█"
  else "│".

(** [highlightedOrOriginalLine] *)
Definition highlightedOrOriginalLine (tc : TreeContext) (i : Z) (original : string) : string :=
  match outputLines tc !! i with
  | Some hl => hl
  | None => original
  end.

(** [fmt]'s [%3d]: decimal, right-aligned in three columns. *)
Definition fmt3d (n : Z) : string :=
  let d := pretty n in
  match String.length d with
  | O => "   " +:+ d
  | 1%nat => "  " +:+ d
  | 2%nat => " " +:+ d
  | _ => d
  end.

(** The text written for a shown line. *)
Definition lineText (tc : TreeContext) (i : Z) (line : string) : string :=
  let spacer := lineOfInterestSpacer tc i in
  let oline := highlightedOrOriginalLine tc i line in
  if lineNumber tc
  then fmt3d (i + 1) +:+ spacer +:+ oline +:+ newline
  else spacer +:+ oline +:+ newline.

(** The loop of [Format] over [tc.lines[i:]]. *)
Fixpoint formatLines (tc : TreeContext) (i : Z) (rest : list string)
    (printEllipsis : bool) : list Chunk :=
  match rest with
  | [] => []
  | line :: rest' =>
      if bool_decide (i ∈ showLines tc)
      then ChunkLine i (lineText tc i line) :: formatLines tc (i + 1) rest' true
      else if printEllipsis
           then ChunkEllipsis :: formatLines tc (i + 1) rest' false
           else formatLines tc (i + 1) rest' false
  end.

(** The writes of [Format], in order. *)
Definition FormatChunks (tc : TreeContext) : list Chunk :=
  if Z.of_nat (size (showLines tc)) =? 0 then []
  else
    (if color tc then [ChunkReset] else [])
    ++ formatLines tc 0 (lines tc) (negb (bool_decide (0 ∈ showLines tc))).

(** [Format] *)
Definition Format (tc : TreeContext) : string :=
  foldr (fun c acc => renderChunk c +:+ acc) EmptyString (FormatChunks tc).

(** ** Notions used to state the properties *)

(** The nodes [walkTree] visits, in visiting order: pre-order, pruned
    below a node whose start row lies outside the index of size [N]. *)
Fixpoint visited (N : Z) (node : Node) : list Node :=
  match node with
  | mkNode _ _ children =>
      if (startLineOf node <? 0) || (N <=? startLineOf node) then []
      else node :: (fix go (cs : list Node) : list Node :=
                      match cs with
                      | [] => []
                      | child :: cs' => visited N child ++ go cs'
                      end) children
  end.

(** The header candidate a node writes: [[size, startLine, endLine]]. *)
Definition candidate (n : Node) : list Z := [sizeOf n; startLineOf n; endLineOf n].

(** The nodes with a positive line span that start at line [i]. *)
Definition ownersAt (i : Z) (ns : list Node) : list Node :=
  filter (fun n => startLineOf n = i ∧ 0 < sizeOf n) ns.

(** The header rule as the specification words it: the candidate kept
    for line [i] is the one of a largest-span node starting there. *)
Definition largestSpanWins (root : Node) (tc : TreeContext) (i : Z) : Prop :=
  ∀ n, n ∈ ownersAt i (visited (len (nodes tc)) root) →
       (∀ m, m ∈ ownersAt i (visited (len (nodes tc)) root) → sizeOf m ≤ sizeOf n) →
       header (walkTree root tc) !! Z.to_nat i = Some (candidate n).

(** The structural index is well formed when every scope owner recorded
    for a line has a header slot: this is what the unchecked read
    [tc.header[lineNum]] of [addParentScopes] relies on. *)
Definition wfIndex (tc : TreeContext) : Prop :=
  Forall (set_Forall (fun s => 0 ≤ s < len (header tc))) (scopes tc).

#[global] Instance wfIndex_dec (tc : TreeContext) : Decision (wfIndex tc).
Proof. unfold wfIndex. apply _. Defined.

(** [tc'] differs from [tc] at most in lines-to-show and in the memo of
    expanded lines, and both have only grown. *)
Definition extends (tc tc' : TreeContext) : Prop :=
  ∃ S D, tc' = set_showLines S (set_doneParentScopes D tc)
         ∧ showLines tc ⊆ S ∧ doneParentScopes tc ⊆ D.

(** The lines [addParentScopes] reveals for a header [[headStart, headEnd]]. *)
Definition headerLines (tc : TreeContext) (headerSlice : list Z) : gset Z :=
  match headerSlice with
  | headStart :: headEnd :: _ =>
      if (0 <? headStart) || showTopOfFileParentScope tc
      then list_to_set (seqZ headStart (Z.min headEnd (numLines tc) - headStart))
      else ∅
  | _ => ∅
  end.

(** The indices [addParentScopes] accepts. *)
Definition inRange (tc : TreeContext) : gset Z :=
  list_to_set (seqZ 0 (len (scopes tc))).

(** How many indices [addParentScopes] can still expand. *)
Definition undone (tc : TreeContext) : nat :=
  size (inRange tc ∖ doneParentScopes tc).

(** Sets [S] of lines and [D] of expanded indices are closed at [j] when
    they hold what expanding [j] adds: the header lines of every scope of
    [j] and, under the last-line option, the last line of each such scope. *)
Definition closedAt (tc : TreeContext) (S D : gset Z) (j : Z) : Prop :=
  ∀ Sc s hs,
    scopes tc !! Z.to_nat j = Some Sc → s ∈ Sc → 0 ≤ s →
    header tc !! Z.to_nat s = Some hs → 2 ≤ len hs →
    headerLines tc hs ⊆ S
    ∧ (lastLine tc = true →
       0 ≤ getLastLineOfScope tc s < len (scopes tc) →
       getLastLineOfScope tc s ∈ D).

(** What one round of the scope loop has established for [lineNum]. *)
Definition stepDone (tc : TreeContext) (S D : gset Z) (s : Z) : Prop :=
  0 ≤ s ∧
  ∀ hs, header tc !! Z.to_nat s = Some hs → 2 ≤ len hs →
    headerLines tc hs ⊆ S
    ∧ (lastLine tc = true →
       0 ≤ getLastLineOfScope tc s < len (scopes tc) →
       getLastLineOfScope tc s ∈ D).

(** [tc'] extends [tc] and is closed at every index expanded in between. *)
Definition grows (tc tc' : TreeContext) : Prop :=
  extends tc tc'
  ∧ ∀ j, j ∈ doneParentScopes tc' → j ∉ doneParentScopes tc →
         0 ≤ j < len (scopes tc)
         ∧ closedAt tc (showLines tc') (doneParentScopes tc') j.

(** ** Rendering, as the specification words it *)

(** Source line [i] exists and is blank / holds text. *)
Definition blankAt (tc : TreeContext) (i : Z) : bool :=
  match lines tc !! Z.to_nat i with Some l => isBlank l | None => false end.

Definition textAt (tc : TreeContext) (i : Z) : bool :=
  match lines tc !! Z.to_nat i with Some l => negb (isBlank l) | None => false end.

(** The blank-line rule as the specification words it: a shown line that
    is not within two lines of the end and is followed by a blank line
    has that blank line shown too. *)
Definition blankFollowsShown (tc : TreeContext) : Prop :=
  ∀ i, 0 ≤ i → i ∈ showLines tc → i < numLines tc - 2 →
       blankAt tc (i + 1) = true → i + 1 ∈ showLines tc.

(** Line [i] is the first line of a maximal run of hidden lines. *)
Definition startsHiddenRun (tc : TreeContext) (i : Z) : bool :=
  negb (bool_decide (i ∈ showLines tc))
  && ((i =? 0) || bool_decide (i - 1 ∈ showLines tc)).

(** What a line contributes to the output: its text when shown, one
    marker when it opens a hidden run, nothing further inside the run. *)
Definition chunksOfLine (tc : TreeContext) (il : Z * string) : list Chunk :=
  if bool_decide (il.1 ∈ showLines tc) then [ChunkLine il.1 (lineText tc il.1 il.2)]
  else if startsHiddenRun tc il.1 then [ChunkEllipsis]
  else [].

Definition numberedLines (tc : TreeContext) : list (Z * string) :=
  zip (seqZ 0 (len (lines tc))) (lines tc).

Definition isEllipsis (c : Chunk) : bool :=
  match c with ChunkEllipsis => true | _ => false end.

Definition countMarkers (cs : list Chunk) : nat := length (List.filter isEllipsis cs).

Definition hiddenRuns (tc : TreeContext) : nat :=
  length (List.filter (startsHiddenRun tc) (seqZ 0 (len (lines tc)))).

(** The ellipsis rule as the specification words it. *)
Definition oneMarkerPerRun (tc : TreeContext) : Prop :=
  countMarkers (FormatChunks tc) = hiddenRuns tc.

(** ** A stand-in regular-expression engine

    It covers the patterns the examples need.  On patterns of fewer than
    a hundred characters made of ASCII letters, digits, spaces and
    parentheses, with an optional leading [(?i)], and on ASCII text, it
    agrees with Go's [regexp]: the pattern compiles when its parentheses
    balance; groups of plain characters match what the characters match
    in a row; [(?i)] makes the search ignore the case of letters; the
    leftmost match is found; replacement goes through the matches from
    left to right, and for a pattern that matches the empty string it
    takes place before every character and at the end.  Other operators
    of the pattern language are not interpreted. *)
Definition lowerAscii (c : ascii) : ascii :=
  let n := nat_of_ascii c in
  if (65 <=? n)%nat && (n <=? 90)%nat then ascii_of_nat (n + 32) else c.

Definition sameChar (fold : bool) (a b : ascii) : bool :=
  if fold then Ascii.eqb (lowerAscii a) (lowerAscii b) else Ascii.eqb a b.

Fixpoint prefixBy (fold : bool) (pat s : string) : bool :=
  match pat, s with
  | EmptyString, _ => true
  | String a pat', String b s' => sameChar fold a b && prefixBy fold pat' s'
  | String _ _, EmptyString => false
  end.

Fixpoint balancedFrom (depth : nat) (s : string) : bool :=
  match s with
  | EmptyString => Nat.eqb depth 0
  | String c s' =>
      if Ascii.eqb c "("%char then balancedFrom (S depth) s'
      else if Ascii.eqb c ")"%char
           then match depth with O => false | S d => balancedFrom d s' end
           else balancedFrom depth s'
  end.

Fixpoint dropChars (n : nat) (s : string) : string :=
  match n, s with
  | S n', String _ s' => dropChars n' s'
  | _, _ => s
  end.

Fixpoint takeChars (n : nat) (s : string) : string :=
  match n, s with
  | S n', String c s' => String c (takeChars n' s')
  | _, _ => EmptyString
  end.

Definition foldsCase (re : string) : bool := String.prefix "(?i)" re.

Fixpoint dropParens (s : string) : string :=
  match s with
  | EmptyString => EmptyString
  | String c s' =>
      if Ascii.eqb c "("%char || Ascii.eqb c ")"%char then dropParens s'
      else String c (dropParens s')
  end.

Definition literalOf (re : string) : string :=
  dropParens (if foldsCase re then dropChars 4 re else re).

Fixpoint findFrom (fold : bool) (lit s : string) (pos : nat) : option (nat * nat) :=
  if prefixBy fold lit s then Some (pos, (pos + String.length lit)%nat)
  else match s with
       | EmptyString => None
       | String _ s' => findFrom fold lit s' (S pos)
       end.

Fixpoint replaceEmpty (f : string → string) (s : string) : string :=
  match s with
  | EmptyString => f EmptyString
  | String c s' => f EmptyString +:+ String c (replaceEmpty f s')
  end.

Fixpoint replaceLiteral (fuel : nat) (fold : bool) (lit : string)
    (f : string → string) (s : string) : string :=
  match fuel with
  | O => s
  | S fuel' =>
      if prefixBy fold lit s
      then f (takeChars (String.length lit) s)
           +:+ replaceLiteral fuel' fold lit f (dropChars (String.length lit) s)
      else match s with
           | EmptyString => EmptyString
           | String c s' => String c (replaceLiteral fuel' fold lit f s')
           end
  end.

Definition literalEngine : RegexEngine :=
  {| regex := string;
     compile := fun pat => if balancedFrom 0 pat then Some pat else None;
     findStringIndex := fun re s => findFrom (foldsCase re) (literalOf re) s 0;
     replaceAllStringFunc := fun re s f =>
       if String.eqb (literalOf re) EmptyString then replaceEmpty f s
       else replaceLiteral (S (String.length s)) (foldsCase re) (literalOf re) f s |}.

(** ** A caller of [Grep]

    [grepThen] is a call of [Grep] followed by the rest [k] of the caller.
    Nothing in the repository recovers from a panic, so a panic of [Grep]
    unwinds the caller too. *)
Definition grepThen {A} (E : RegexEngine) (pat : string) (ignoreCase : bool)
    (k : gset Z → TreeContext → res A) (tc : TreeContext) : res A :=
  let '(r, tc') := Grep E pat ignoreCase tc in
  do found <- r; k found tc'.

(** The calls [main] makes once the file is read and parsed: construct,
    [Grep], [AddLinesOfInterest], [AddContext], [Format], and print the
    text with [fmt.Println].  The result is what gets printed. *)
Definition mainPipeline (E : RegexEngine) (o : IterOrder) (fname src : string)
    (options : TreeContextOptions) (root : Node) (pat : string) (ignoreCase : bool)
    : res string :=
  do tc <- NewTreeContext fname src options root;
  grepThen E pat ignoreCase
    (fun found tc =>
       let tc := AddLinesOfInterest o found tc in
       do tc <- AddContext o tc;
       Ok (Format tc +:+ newline))
    tc.

(** The failure rule as the specification words it: a pattern that does
    not compile is fatal to the call of [Grep] only, and the caller goes
    on with the context as it was. *)
Definition failureStaysInCall (E : RegexEngine) (pat : string) (ignoreCase : bool)
    (tc : TreeContext) : Prop :=
  ∀ (k : gset Z → TreeContext → res string),
    ∃ found, grepThen E pat ignoreCase k tc = k found tc.


(** ** Descendant preview, as the specification words it *)

(** The descendants [addChildContext] walks for line [i], largest span
    first. *)
Definition sortedDescendants (tc : TreeContext) (i : Z) : list Node :=
  sortNodesBySize (flat_map findAllChildren (default [] (nodes tc !! Z.to_nat i))).

(** The ancestor expansions of the nodes [cs], one after the other, with
    no budget test in between. *)
Definition expandAll (o : IterOrder) (cs : list Node) (tc : TreeContext) : res TreeContext :=
  foldM (fun tc c => addParentScopes o (fuelOf tc) (startLineOf c) tc) cs tc.

(** How many lines [tc'] shows beyond those of [tc]. *)
Definition added (tc tc' : TreeContext) : Z :=
  Z.of_nat (size (showLines tc')) - Z.of_nat (size (showLines tc)).

(** The budget rule as the specification words it. *)
Definition withinBudget (o : IterOrder) (i : Z) (tc : TreeContext) : Prop :=
  ∀ tc', addChildContext o i tc = Ok tc' →
         added tc tc' ≤ computedMax (getLastLineOfScope tc i - i).

(** ** Repeated and reordered expansion, as the specification words it *)

(** A second call right after the first changes no line to show. *)
Definition idempotentAddContext (o : IterOrder) (tc : TreeContext) : Prop :=
  ∀ tc1 tc2, AddContext o tc = Ok tc1 → AddContext o tc1 = Ok tc2 →
             showLines tc2 = showLines tc1.

(** Two runs from the same context show the same lines. *)
Definition deterministicAddContext (tc : TreeContext) : Prop :=
  ∀ o1 o2 tc1 tc2, AddContext o1 tc = Ok tc1 → AddContext o2 tc = Ok tc2 →
                   showLines tc1 = showLines tc2.

(** The string has no newline byte. *)
Fixpoint noNewline (s : string) : bool :=
  match s with
  | EmptyString => true
  | String c s' => negb (Ascii.eqb c "010"%char) && noNewline s'
  end.

(** ** Matching, as needed to state what [Grep] returns *)

(** Line [j] exists and the compiled pattern matches somewhere in it. *)
Definition matchesAt (E : RegexEngine) (re : regex E) (tc : TreeContext) (j : Z) : bool :=
  (0 <=? j)
  && match lines tc !! Z.to_nat j with
     | Some line => bool_decide (is_Some (findStringIndex E re line))
     | None => false
     end.

(** The highlighted form [Grep] stores for a matching line. *)
Definition highlight (E : RegexEngine) (re : regex E) (line : string) : string :=
  replaceAllStringFunc E re line (fun m => esc +:+ "[1;31m" +:+ m +:+ esc +:+ "[0m").

(** The source line a chunk prints, if it prints one. *)
Definition lineIndex (c : Chunk) : option Z :=
  match c with ChunkLine i _ => Some i | _ => None end.

(** ** Sequences of calls *)

Inductive Op : Type :=
  | OpAddLinesOfInterest (lineNums : gset Z)
  | OpAddContext.

Definition runOp (o : IterOrder) (tc : TreeContext) (op : Op) : res TreeContext :=
  match op with
  | OpAddLinesOfInterest lineNums => Ok (AddLinesOfInterest o lineNums tc)
  | OpAddContext => AddContext o tc
  end.

Definition runOps (o : IterOrder) (ops : list Op) (tc : TreeContext) : res TreeContext :=
  foldM (runOp o) ops tc.

(** ** Iteration orders used in the examples *)
Definition ascending : IterOrder :=
  {| order := fun _ l => merge_sort Z.le l;
     order_perm := fun _ l => merge_sort_Permutation Z.le l |}.

Definition descending : IterOrder :=
  {| order := fun _ l => reverse (merge_sort Z.le l);
     order_perm := fun _ l =>
       transitivity (reverse_Permutation (merge_sort Z.le l))
                    (merge_sort_Permutation Z.le l) |}.

(** Descending everywhere except in the descendant-preview loop, which
    takes the lines of interest in ascending order. *)
Definition isPreviewSite (s : Site) : bool :=
  match s with SiteChildren => true | _ => false end.

Definition descendingButPreview : IterOrder :=
  {| order := fun s l =>
       if isPreviewSite s then merge_sort Z.le l else reverse (merge_sort Z.le l);
     order_perm := fun s l =>
       match isPreviewSite s as b
             return (if b then merge_sort Z.le l else reverse (merge_sort Z.le l)) ≡ₚ l
       with
       | true => merge_sort_Permutation Z.le l
       | false => transitivity (reverse_Permutation (merge_sort Z.le l))
                               (merge_sort_Permutation Z.le l)
       end |}.

(** ** Example inputs *)

(** [n] lines of text [x], joined by newlines. *)
Fixpoint textLines (n : nat) : string :=
  match n with
  | O => EmptyString
  | 1%nat => "x"
  | S n' => "x" +:+ newline +:+ textLines n'
  end.

Definition defaultOptions : TreeContextOptions :=
  mkOptions false false false false false false 0 false 10 false 0.

(** A four-line file whose root spans rows 0..3 and whose first child
    (say a two-line declaration) spans rows 0..1. *)
Definition twoOwners : Node := mkNode 0 3 [mkNode 0 1 []].

(** The context a constructor call returns ([dflt] if it failed). *)
Definition built (r : res TreeContext) (dflt : TreeContext) : TreeContext :=
  match r with Ok tc => tc | Err _ => dflt end.

(** A file of [n] lines of text under a single root node. *)
Definition flatContext (n : nat) : TreeContext :=
  built (NewTreeContext "f.go" (textLines n) defaultOptions (mkNode 0 (n - 1) []))
        (emptyContext "f.go" (textLines n) defaultOptions).

(** Thirteen lines; a declaration spans rows 1..11 under the root; line 1
    is of interest and has been seeded into the lines to show. *)
Definition budgetContext : TreeContext :=
  seedPass ascending
    (AddLinesOfInterest ascending {[1]}
       (built (NewTreeContext "f.go" (textLines 13) defaultOptions
                 (mkNode 0 12 [mkNode 1 11 []]))
              (emptyContext "f.go" (textLines 13) defaultOptions))).

Definition budgetResult : TreeContext :=
  built (addChildContext ascending 1 budgetContext) budgetContext.

(** Twenty lines under a single root, a padding of one line, line 10 of
    interest. *)
Definition paddedContext : TreeContext :=
  AddLinesOfInterest ascending {[10]}
    (built (NewTreeContext "f.go" (textLines 20)
              (mkOptions false false false false false false 0 false 10 false 1)
              (mkNode 0 19 []))
           (emptyContext "f.go" (textLines 20) defaultOptions)).

Definition paddedOnce : TreeContext :=
  built (AddContext ascending paddedContext) paddedContext.

Definition paddedTwice : TreeContext :=
  built (AddContext ascending paddedOnce) paddedOnce.

(** Sixty-one lines: a declaration on rows 1..59 holds a block on rows
    2..20 with four statements, and six further three-line statements;
    descendant preview is on, headers are cut to one line, and lines 1
    and 2 are of interest. *)
Definition previewTree : Node :=
  mkNode 0 60
    [mkNode 1 59
       [mkNode 2 20 [mkNode 4 8 []; mkNode 9 13 []; mkNode 14 15 []; mkNode 16 17 []];
        mkNode 22 24 []; mkNode 25 27 []; mkNode 28 30 [];
        mkNode 31 33 []; mkNode 34 36 []; mkNode 37 39 []]].

Definition previewContext : TreeContext :=
  AddLinesOfInterest ascending {[1; 2]}
    (built (NewTreeContext "f.go" (textLines 61)
              (mkOptions false false false false true false 0 false 1 false 0)
              previewTree)
           (emptyContext "f.go" (textLines 61) defaultOptions)).

Definition previewAscending : TreeContext :=
  built (AddContext ascending previewContext) previewContext.

Definition previewDescending : TreeContext :=
  built (AddContext descending previewContext) previewContext.

(** Twenty lines, a margin of three and line 10 of interest. *)
Definition marginContext : TreeContext :=
  AddLinesOfInterest ascending {[10]}
    (built (NewTreeContext "f.go" (textLines 20)
              (mkOptions false false false false false false 3 false 10 false 0)
              (mkNode 0 19 []))
           (emptyContext "f.go" (textLines 20) defaultOptions)).

(** The preview example with ancestor context on and only line 10 of
    interest. *)
Definition ancestorContext : TreeContext :=
  AddLinesOfInterest ascending {[10]}
    (built (NewTreeContext "f.go" (textLines 61)
              (mkOptions false false false true false false 0 false 1 false 0)
              previewTree)
           (emptyContext "f.go" (textLines 61) defaultOptions)).

(** Twenty lines, the last-line option on, line 10 of interest. *)
Definition lastLineContext : TreeContext :=
  AddLinesOfInterest ascending {[10]}
    (built (NewTreeContext "f.go" (textLines 20)
              (mkOptions false false false false false true 0 false 10 false 0)
              (mkNode 0 19 []))
           (emptyContext "f.go" (textLines 20) defaultOptions)).

(** Ten lines, the second of them empty; a declaration on rows 5..8 holds
    a statement on rows 6..7.  Ancestor context, the last line and a
    margin of one line are on, headers are cut to two lines, there is no
    padding and no descendant preview; lines 3 and 7 are of interest. *)
Definition gapsSource : string :=
  "x" +:+ newline +:+ newline +:+ textLines 8.

Definition gapsContext : TreeContext :=
  AddLinesOfInterest ascending {[3; 7]}
    (built (NewTreeContext "f.go" gapsSource
              (mkOptions false false false true false true 1 false 2 false 0)
              (mkNode 0 9 [mkNode 5 8 [mkNode 6 7 []]]))
           (emptyContext "f.go" gapsSource defaultOptions)).

Definition gapsOnce : TreeContext :=
  built (AddContext ascending gapsContext) gapsContext.

(** The preview example with ancestor context, descendant preview and
    the last line all on, and lines 1 and 2 of interest. *)
Definition fullContext : TreeContext :=
  AddLinesOfInterest ascending {[1; 2]}
    (built (NewTreeContext "f.go" (textLines 61)
              (mkOptions false false false true true true 0 false 1 false 0)
              previewTree)
           (emptyContext "f.go" (textLines 61) defaultOptions)).

(** Lines 3 and 5 of a seven-line file are to be shown. *)
Definition shown35 : TreeContext := set_showLines {[3; 5]} (flatContext 7).

(** Seven lines of which lines 0, 1, 5 and 6 are to be shown. *)
Definition shown0156 : TreeContext := set_showLines {[0; 1; 5; 6]} (flatContext 7).

(** Six lines, the second and third of them empty, one line of interest. *)
Definition blanksSource : string :=
  "x" +:+ newline +:+ newline +:+ newline +:+ "x" +:+ newline +:+ "x" +:+ newline +:+ "x".

Definition blanksContext : TreeContext :=
  AddLinesOfInterest ascending {[0]}
    (built (NewTreeContext "f.go" blanksSource defaultOptions (mkNode 0 5 []))
           (emptyContext "f.go" blanksSource defaultOptions)).

Definition blanksResult : TreeContext :=
  built (AddContext ascending blanksContext) blanksContext.

Definition twoOwnersContext : TreeContext :=
  built (NewTreeContext "f.go" (textLines 4) defaultOptions twoOwners)
        (emptyContext "f.go" (textLines 4) defaultOptions).

(** * Properties *)

(** ** Basic facts *)

(** Case analysis on every integer comparison of the goal. *)
Ltac zbool :=
  repeat match goal with
         | |- context [?a <=? ?b] => destruct (Z.leb_spec a b)
         | |- context [?a <? ?b] => destruct (Z.ltb_spec a b)
         | |- context [?a =? ?b] => destruct (Z.eqb_spec a b)
         end;
  cbn [andb orb negb]; try (done || lia).

Ltac zbool_hyp H :=
  revert H; zbool.

Lemma len_nonneg {A} (l : list A) : 0 ≤ len l.
Proof. unfold len. lia. Qed.

Lemma Node_ind' (P : Node → Prop) :
  (∀ s e cs, Forall P cs → P (mkNode s e cs)) → ∀ n, P n.
Proof.
  intros H. fix IH 1. intros [s e cs]. apply H.
  induction cs as [|c cs IHcs]; constructor; [apply IH | apply IHcs].
Qed.

Lemma walkTree_unfold (n : Node) tc :
  walkTree n tc =
  if (startLineOf n <? 0) || (len (nodes tc) <=? startLineOf n) then tc
  else foldl (fun tc c => walkTree c tc) (visit tc n) (namedChildren n).
Proof.
  destruct n as [s e cs]. cbn [walkTree namedChildren].
  destruct (_ || _); [done|].
  generalize (visit tc (mkNode s e cs)). intros t. revert t.
  induction cs as [|c cs' IH]; intros t; [done|]. cbn [foldl]. apply IH.
Qed.

Lemma visited_unfold N (n : Node) :
  visited N n =
  if (startLineOf n <? 0) || (N <=? startLineOf n) then []
  else n :: flat_map (visited N) (namedChildren n).
Proof.
  destruct n as [s e cs]. cbn [visited namedChildren].
  destruct (_ || _); reflexivity.
Qed.

Lemma visit_len_nodes tc n : len (nodes (visit tc n)) = len (nodes tc).
Proof.
  unfold visit, len. repeat case_match; cbn; by rewrite length_alter.
Qed.

Lemma foldl_visit_len_nodes l tc : len (nodes (foldl visit tc l)) = len (nodes tc).
Proof.
  revert tc. induction l as [|n l IH]; intros tc; [done|].
  cbn [foldl]. rewrite IH. apply visit_len_nodes.
Qed.

(** [walkTree] is the left fold of [visit] over the visited nodes. *)
Lemma walkTree_visited (n : Node) tc :
  walkTree n tc = foldl visit tc (visited (len (nodes tc)) n).
Proof.
  revert tc. induction n as [s e cs IH] using Node_ind'. intros tc.
  rewrite walkTree_unfold, visited_unfold.
  destruct (_ || _); [done|]. cbn [foldl namedChildren].
  rewrite <- (visit_len_nodes tc (mkNode s e cs)).
  generalize (visit tc (mkNode s e cs)). intros t. revert t.
  induction IH as [|c cs' Hc _ IHcs]; intros t; [done|].
  cbn [foldl flat_map]. rewrite foldl_app. rewrite Hc.
  rewrite IHcs. by rewrite foldl_visit_len_nodes.
Qed.

(** ** The scope indexer *)

Lemma header_visit tc n :
  header (visit tc n) =
  if (0 <? sizeOf n) && (startLineOf n <? len (header tc))
  then <[Z.to_nat (startLineOf n) := candidate n]> (header tc)
  else header tc.
Proof.
  unfold visit, candidate. fold (sizeOf n).
  destruct (0 <? sizeOf n); cbn; [|done].
  by destruct (startLineOf n <? len (header tc)).
Qed.

Lemma len_header_visit tc n : len (header (visit tc n)) = len (header tc).
Proof.
  rewrite header_visit. destruct (_ && _); [|done].
  unfold len. by rewrite length_insert.
Qed.

Lemma len_header_foldl_visit l tc : len (header (foldl visit tc l)) = len (header tc).
Proof.
  revert tc. induction l as [|n l IH]; intros tc; [done|].
  cbn [foldl]. rewrite IH. apply len_header_visit.
Qed.

Lemma ownersAt_snoc i l n :
  ownersAt i (l ++ [n]) =
  ownersAt i l ++ (if decide (startLineOf n = i ∧ 0 < sizeOf n) then [n] else []).
Proof.
  unfold ownersAt. by rewrite filter_app.
Qed.

Lemma header_foldl_visit l tc i :
  0 ≤ i < len (header tc) →
  header (foldl visit tc l) !! Z.to_nat i =
  Some (match last (ownersAt i l) with
        | Some n => candidate n
        | None => default [] (header tc !! Z.to_nat i)
        end).
Proof.
  intros Hi. induction l as [|n l IH] using rev_ind.
  - cbn. destruct (header tc !! Z.to_nat i) eqn:E; [done|].
    apply lookup_ge_None in E. unfold len in Hi. lia.
  - rewrite foldl_app, ownersAt_snoc. cbn [foldl].
    rewrite header_visit, len_header_foldl_visit.
    destruct (decide (startLineOf n = i ∧ 0 < sizeOf n)) as [[Hs Hsz]|Hn].
    + rewrite last_snoc.
      assert ((0 <? sizeOf n) = true) as -> by lia.
      assert ((startLineOf n <? len (header tc)) = true) as -> by lia.
      cbn [andb]. rewrite Hs. apply list_lookup_insert_eq.
      pose proof (len_header_foldl_visit l tc) as Hl. unfold len in *. lia.
    + rewrite app_nil_r, <- IH.
      destruct (_ && _) eqn:E; [|done].
      apply andb_prop in E as [E1 E2].
      apply list_lookup_insert_ne. intros Heq. apply Hn.
      unfold startLineOf in *. lia.
Qed.

(** C1 (amended): every node spanning more than one line overwrites the
    header candidate of its start line, so the candidate left for line [i]
    is the one of the last node visited, in pre-order, among those that
    start at [i] with a positive span; a line without such a node keeps
    what it held. *)
Theorem walkTree_header_last_owner (root : Node) (tc : TreeContext) (i : Z) :
  0 ≤ i < len (header tc) →
  header (walkTree root tc) !! Z.to_nat i =
  Some (match last (ownersAt i (visited (len (nodes tc)) root)) with
        | Some n => candidate n
        | None => default [] (header tc !! Z.to_nat i)
        end).
Proof. intros Hi. rewrite walkTree_visited. by apply header_foldl_visit. Qed.

Lemma walkTree_header_last_owner_witness :
  header (walkTree twoOwners (emptyContext "f.go" (textLines 4) defaultOptions))
    !! Z.to_nat 0
  = Some [1; 0; 1].
Proof.
  rewrite (walkTree_header_last_owner twoOwners _ 0); [reflexivity|].
  vm_compute. split; [discriminate | reflexivity].
Defined.

(** C1 as stated fails: the root (rows 0..3) is the largest node starting
    at line 0, yet the candidate kept is the one of its child (rows 0..1),
    written later. *)
Lemma largestSpanWins_fails :
  ¬ largestSpanWins twoOwners (emptyContext "f.go" (textLines 4) defaultOptions) 0.
Proof.
  intros H. specialize (H twoOwners).
  assert (ownersAt 0 (visited (len (nodes (emptyContext "f.go" (textLines 4) defaultOptions)))
                        twoOwners) = [twoOwners; mkNode 0 1 []]) as E by reflexivity.
  rewrite E in H.
  assert (header (walkTree twoOwners (emptyContext "f.go" (textLines 4) defaultOptions))
            !! Z.to_nat 0 = Some [1; 0; 1]) as E' by reflexivity.
  rewrite E' in H.
  enough (Some [1; 0; 1] = Some (candidate twoOwners)) as Hbad by discriminate Hbad.
  apply H; [by left|].
  intros m Hm. apply elem_of_cons in Hm as [->|Hm]; [done|].
  apply list_elem_of_singleton in Hm as ->. vm_compute. discriminate.
Qed.

(** The header loop of [postWalkProcessing], from slot [a] on. *)
Lemma postWalk_loop (k : nat) : ∀ (a : Z) (tc : TreeContext),
  0 ≤ a → a + Z.of_nat k ≤ len (header tc) →
  ∃ h, foldM (fun tc i =>
           match header tc !! Z.to_nat i with
           | None => Err IndexOutOfRange
           | Some headerSlice =>
               Ok (set_header (<[Z.to_nat i := finalizeHeader (headerMax tc) i headerSlice]> (header tc)) tc)
           end) (seqZ a (Z.of_nat k)) tc = Ok (set_header h tc)
       ∧ length h = length (header tc)
       ∧ ∀ j hs, 0 ≤ j → header tc !! Z.to_nat j = Some hs →
           h !! Z.to_nat j =
           Some (if (a <=? j) && (j <? a + Z.of_nat k)
                 then finalizeHeader (headerMax tc) j hs else hs).
Proof.
  induction k as [|k IH]; intros a tc Ha Hk.
  - exists (header tc). split; [by destruct tc|]. split; [done|].
    intros j hs Hj Hl. rewrite Hl. f_equal.
    assert ((a <=? j) && (j <? a + Z.of_nat 0) = false) as -> by zbool. done.
  - rewrite seqZ_cons by lia. cbn [foldM].
    destruct (header tc !! Z.to_nat a) as [hs0|] eqn:E0.
    2:{ apply lookup_ge_None in E0. unfold len in Hk. lia. }
    cbn [bind].
    replace (Z.pred (Z.of_nat (S k))) with (Z.of_nat k) by lia.
    set (tc1 := set_header _ tc).
    destruct (IH (Z.succ a) tc1) as (h & Hf & Hlen & Hlook).
    { lia. }
    { subst tc1. cbn. unfold len in *. rewrite length_insert. lia. }
    exists h. split; [|split].
    + rewrite Hf. subst tc1. by destruct tc.
    + rewrite Hlen. subst tc1. cbn. by rewrite length_insert.
    + intros j hs Hj Hl.
      destruct (decide (j = a)) as [->|Hne].
      * rewrite (Hlook a (finalizeHeader (headerMax tc) a hs0) Hj).
        2:{ subst tc1. cbn. apply list_lookup_insert_eq.
            by apply lookup_lt_Some in E0. }
        assert (hs = hs0) as -> by congruence.
        assert ((Z.succ a <=? a) && (a <? Z.succ a + Z.of_nat k) = false) as -> by zbool.
        assert ((a <=? a) && (a <? a + Z.of_nat (S k)) = true) as -> by zbool.
        done.
      * rewrite (Hlook j hs Hj).
        2:{ subst tc1. cbn. rewrite list_lookup_insert_ne by lia. done. }
        subst tc1. cbn [headerMax set_header].
        destruct (decide (a < j)).
        -- assert ((Z.succ a <=? j) && (j <? Z.succ a + Z.of_nat k)
                   = (a <=? j) && (j <? a + Z.of_nat (S k))) as -> by zbool. done.
        -- assert ((Z.succ a <=? j) && (j <? Z.succ a + Z.of_nat k) = false) as -> by zbool.
           assert ((a <=? j) && (j <? a + Z.of_nat (S k)) = false) as -> by zbool.
           done.
Qed.

(** [postWalkProcessing] succeeds when the header slice has a slot for
    every line it visits, and rewrites exactly those slots. *)
Lemma postWalkProcessing_ok tc :
  0 ≤ numLines tc ≤ len (header tc) →
  ∃ h, postWalkProcessing tc = Ok (set_header h tc)
       ∧ length h = length (header tc)
       ∧ ∀ j hs, 0 ≤ j → header tc !! Z.to_nat j = Some hs →
           h !! Z.to_nat j =
           Some (if j <? numLines tc then finalizeHeader (headerMax tc) j hs else hs).
Proof.
  intros Hn. unfold postWalkProcessing.
  destruct (postWalk_loop (Z.to_nat (numLines tc)) 0 tc) as (h & Hf & Hlen & Hlook);
    [lia | lia |].
  rewrite Z2Nat.id in Hf by lia.
  exists h. split; [done|]. split; [done|].
  intros j hs Hj Hl. rewrite (Hlook j hs Hj Hl).
  assert ((0 <=? j) && (j <? 0 + Z.of_nat (Z.to_nat (numLines tc))) = (j <? numLines tc))
    as -> by zbool.
  done.
Qed.

Lemma visited_in_range N (n : Node) :
  Forall (fun m => 0 ≤ startLineOf m < N) (visited N n).
Proof.
  induction n as [s e cs IH] using Node_ind'.
  rewrite visited_unfold. destruct (_ || _) eqn:E; [constructor|].
  constructor.
  { zbool_hyp E. }
  clear E. cbn [namedChildren].
  induction IH as [|c cs' Hc _ IHcs]; cbn [flat_map]; [constructor|].
  apply Forall_app. by split.
Qed.

(** [visit] and [walkTree] touch the three index slices only. *)
Lemma visit_shape tc n :
  visit tc n =
  set_scopes (scopes (visit tc n))
    (set_header (header (visit tc n)) (set_nodes (nodes (visit tc n)) tc)).
Proof. unfold visit. destruct tc. repeat case_match; reflexivity. Qed.

Lemma foldl_visit_shape l tc :
  foldl visit tc l =
  set_scopes (scopes (foldl visit tc l))
    (set_header (header (foldl visit tc l)) (set_nodes (nodes (foldl visit tc l)) tc)).
Proof.
  revert tc. induction l as [|n l IH]; intros tc; [by destruct tc|].
  cbn [foldl]. rewrite IH at 1. rewrite (visit_shape tc n) at 4. by destruct tc.
Qed.

Lemma markScopes_Forall (P : gset Z → Prop) a b sc :
  (∀ S, P S → P ({[a]} ∪ S)) → Forall P sc → Forall P (markScopes a b sc).
Proof.
  intros HP. unfold markScopes.
  generalize (seqZ a (Z.min (b + 1) (len sc) - a)). intros l. revert sc.
  induction l as [|i l IH]; intros sc Hsc; [done|].
  cbn [foldl]. apply IH. apply Forall_alter; [done|]. intros S _. apply HP.
Qed.

Lemma markScopes_length a b sc : length (markScopes a b sc) = length sc.
Proof.
  unfold markScopes.
  generalize (seqZ a (Z.min (b + 1) (len sc) - a)). intros l. revert sc.
  induction l as [|i l IH]; intros sc; [done|].
  cbn [foldl]. rewrite IH. apply length_alter.
Qed.

Lemma scopes_visit tc n :
  scopes (visit tc n) = markScopes (startLineOf n) (endLineOf n) (scopes tc).
Proof. unfold visit. repeat case_match; reflexivity. Qed.

Lemma foldl_visit_scopes_Forall N l tc :
  Forall (fun m => 0 ≤ startLineOf m < N) l →
  Forall (fun S : gset Z => ∀ s, s ∈ S → 0 ≤ s < N) (scopes tc) →
  Forall (fun S : gset Z => ∀ s, s ∈ S → 0 ≤ s < N) (scopes (foldl visit tc l)).
Proof.
  intros Hl. revert tc. induction Hl as [|n l Hn _ IH]; intros tc Hsc; [done|].
  cbn [foldl]. apply IH. rewrite scopes_visit.
  apply markScopes_Forall; [|done].
  intros S HS s [->%elem_of_singleton|Hs]%elem_of_union; [done|by apply HS].
Qed.

Lemma foldl_visit_scopes_length l tc :
  length (scopes (foldl visit tc l)) = length (scopes tc).
Proof.
  revert tc. induction l as [|n l IH]; intros tc; [done|].
  cbn [foldl]. rewrite IH, scopes_visit. apply markScopes_length.
Qed.

(** Construction never fails, and the index it builds is well formed. *)
Lemma NewTreeContext_ok fname src options root :
  ∃ tc h, NewTreeContext fname src options root = Ok tc
    ∧ tc = set_header h (walkTree root (emptyContext fname src options))
    ∧ length h = S (length (splitLines src))
    ∧ length (scopes tc) = S (length (splitLines src))
    ∧ (∀ j hs, 0 ≤ j ≤ len (splitLines src) →
         header (walkTree root (emptyContext fname src options)) !! Z.to_nat j = Some hs →
         h !! Z.to_nat j = Some (finalizeHeader (HeaderMax options) j hs))
    ∧ wfIndex tc.
Proof.
  unfold NewTreeContext.
  set (tc0 := emptyContext fname src options).
  assert (len (header tc0) = len (splitLines src) + 1) as Hh0.
  { subst tc0. unfold len. cbn. rewrite length_replicate. lia. }
  assert (len (nodes tc0) = len (splitLines src) + 1) as Hn0.
  { subst tc0. unfold len. cbn. rewrite length_replicate. lia. }
  pose proof (walkTree_visited root tc0) as Hw.
  pose proof (foldl_visit_shape (visited (len (nodes tc0)) root) tc0) as Hshape.
  rewrite <- Hw in Hshape.
  assert (len (header (walkTree root tc0)) = len (header tc0)) as Hlen.
  { rewrite Hw. apply len_header_foldl_visit. }
  assert (numLines (walkTree root tc0) = len (splitLines src) + 1) as Hnum.
  { rewrite Hshape. reflexivity. }
  assert (headerMax (walkTree root tc0) = HeaderMax options) as Hmax.
  { rewrite Hshape. reflexivity. }
  destruct (postWalkProcessing_ok (walkTree root tc0)) as (h & Hp & Hlh & Hlook).
  { rewrite Hnum, Hlen, Hh0. pose proof (len_nonneg (splitLines src)). lia. }
  exists (set_header h (walkTree root tc0)), h.
  split; [done|]. split; [done|]. split; [|split; [|split]].
  - unfold len in *. lia.
  - cbn. rewrite Hw, foldl_visit_scopes_length. subst tc0. cbn.
    by rewrite length_replicate.
  - intros j hs Hj Hl. rewrite (Hlook j hs); [|lia|done].
    rewrite Hnum, Hmax. by assert ((j <? len (splitLines src) + 1) = true) as -> by zbool.
  - unfold wfIndex. cbn.
    replace (len h) with (len (nodes tc0)) by (unfold len in *; lia).
    rewrite Hw. apply foldl_visit_scopes_Forall; [apply visited_in_range|].
    subst tc0. unfold emptyContext. cbn [scopes].
    apply Forall_replicate. set_solver.
Qed.

(** C6: the code does not keep [[i, i+1)] for a line that owns no scope.
    [NewTreeContext] fills every header slot with [[0, 0]], a slice of
    length two, so the branch of [postWalkProcessing] that would store
    [[i, i+1]] is never taken: a line where no node of positive span
    starts ends up with the interval that begins at line 0. *)
Theorem nonOwner_header_starts_at_0 fname src options (root : Node) (i : Z) :
  0 ≤ i ≤ len (splitLines src) →
  ownersAt i (visited (len (splitLines src) + 1) root) = [] →
  ∃ tc, NewTreeContext fname src options root = Ok tc
    ∧ header tc !! Z.to_nat i =
      Some [0; if HeaderMax options <? 0 then HeaderMax options else 1].
Proof.
  intros Hi Hown.
  destruct (NewTreeContext_ok fname src options root)
    as (tc & h & Hok & -> & Hlen & _ & Hlook & _).
  eexists. split; [done|]. cbn [header set_header].
  assert (len (nodes (emptyContext fname src options)) = len (splitLines src) + 1) as Hn0.
  { unfold len. cbn. rewrite length_replicate. lia. }
  assert (len (header (emptyContext fname src options)) = len (splitLines src) + 1) as Hh0.
  { unfold len. cbn. rewrite length_replicate. lia. }
  assert (0 ≤ i < len (header (emptyContext fname src options))) as Hi' by lia.
  rewrite (Hlook i _ Hi (walkTree_header_last_owner root _ i Hi')).
  rewrite Hn0, Hown. cbn [last].
  assert (header (emptyContext fname src options) !! Z.to_nat i = Some [0; 0]) as ->.
  { unfold emptyContext. cbn [header]. apply lookup_replicate_2.
    unfold len in Hi. lia. }
  cbn. by destruct (HeaderMax options <? 0).
Qed.

Lemma nonOwner_header_starts_at_0_witness :
  ∃ tc, NewTreeContext "f.go" (textLines 4) defaultOptions twoOwners = Ok tc
    ∧ header tc !! Z.to_nat 2 = Some [0; 1].
Proof.
  apply (nonOwner_header_starts_at_0 "f.go" (textLines 4) defaultOptions twoOwners 2).
  - vm_compute. split; discriminate.
  - reflexivity.
Defined.

(** ** The expander: frame and monotonicity *)

Lemma set_showLines_id tc : set_showLines (showLines tc) tc = tc.
Proof. by destruct tc. Qed.

Lemma extends_refl tc : extends tc tc.
Proof. exists (showLines tc), (doneParentScopes tc). by destruct tc. Qed.

Lemma extends_trans tc1 tc2 tc3 : extends tc1 tc2 → extends tc2 tc3 → extends tc1 tc3.
Proof.
  intros (S & D & -> & HS & HD) (S' & D' & -> & HS' & HD').
  exists S', D'. cbn in *. split; [done|]. split; set_solver.
Qed.

Lemma extends_show x tc : extends tc (show x tc).
Proof.
  exists ({[x]} ∪ showLines tc), (doneParentScopes tc).
  unfold show. destruct tc; cbn. split; [done|]. split; set_solver.
Qed.

Lemma extends_done x tc :
  extends tc (set_doneParentScopes ({[x]} ∪ doneParentScopes tc) tc).
Proof.
  exists (showLines tc), ({[x]} ∪ doneParentScopes tc).
  destruct tc; cbn. split; [done|]. split; set_solver.
Qed.

Lemma foldl_show l tc :
  foldl (fun tc x => show x tc) tc l = set_showLines (list_to_set l ∪ showLines tc) tc.
Proof.
  revert tc. induction l as [|x l IH]; intros tc.
  - cbn. rewrite (left_id_L ∅ (∪)). by destruct tc.
  - cbn [foldl]. rewrite IH. unfold show.
    assert (list_to_set l ∪ ({[x]} ∪ showLines tc)
            = list_to_set (x :: l) ∪ showLines tc :> gset Z) as E by set_solver.
    destruct tc; cbn in *. by rewrite E.
Qed.

Lemma showRange_eq a b tc :
  showRange a b tc = set_showLines (list_to_set (seqZ a (b - a)) ∪ showLines tc) tc.
Proof. apply foldl_show. Qed.

Lemma extends_set_showLines S tc : showLines tc ⊆ S → extends tc (set_showLines S tc).
Proof.
  intros HS. exists S, (doneParentScopes tc). destruct tc; cbn. by split.
Qed.

Lemma extends_showRange a b tc : extends tc (showRange a b tc).
Proof. rewrite showRange_eq. apply extends_set_showLines. set_solver. Qed.

Lemma revealHeader_eq hs tc :
  revealHeader hs tc = set_showLines (headerLines tc hs ∪ showLines tc) tc.
Proof.
  unfold revealHeader, headerLines.
  destruct hs as [|a [|b r]]; try (rewrite (left_id_L ∅ (∪)); by destruct tc).
  destruct (_ || _); [apply showRange_eq|].
  rewrite (left_id_L ∅ (∪)). by destruct tc.
Qed.

Lemma extends_showLines tc tc' : extends tc tc' → showLines tc ⊆ showLines tc'.
Proof. by intros (S & D & -> & HS & HD). Qed.

Lemma extends_doneParentScopes tc tc' :
  extends tc tc' → doneParentScopes tc ⊆ doneParentScopes tc'.
Proof. by intros (S & D & -> & HS & HD). Qed.

Lemma extends_wfIndex tc tc' : extends tc tc' → wfIndex tc → wfIndex tc'.
Proof. by intros (S & D & -> & HS & HD). Qed.

Lemma extends_linesOfInterest tc tc' :
  extends tc tc' → linesOfInterest tc' = linesOfInterest tc.
Proof. by intros (S & D & -> & HS & HD). Qed.

Lemma closedAt_mono tc S D S' D' j :
  S ⊆ S' → D ⊆ D' → closedAt tc S D j → closedAt tc S' D' j.
Proof.
  intros HS HD Hc Sc s hs H1 H2 H3 H4 H5.
  destruct (Hc Sc s hs H1 H2 H3 H4 H5) as [Ha Hb]. split; [set_solver|].
  intros Hl Hr. apply HD. by apply Hb.
Qed.

Lemma closedAt_extends tc tc' S D j : extends tc tc' → closedAt tc' S D j ↔ closedAt tc S D j.
Proof. by intros (S0 & D0 & -> & HS & HD). Qed.

Lemma grows_refl tc : grows tc tc.
Proof. split; [apply extends_refl|]. intros j Hj Hn. done. Qed.

Lemma grows_trans tc1 tc2 tc3 : grows tc1 tc2 → grows tc2 tc3 → grows tc1 tc3.
Proof.
  intros [He1 Hc1] [He2 Hc2]. split; [by eapply extends_trans|].
  intros j Hj Hn.
  destruct (decide (j ∈ doneParentScopes tc2)) as [Hin|Hout].
  - destruct (Hc1 j Hin Hn) as [Hr Hc]. split; [done|].
    eapply closedAt_mono; [..|exact Hc].
    + by apply extends_showLines.
    + by apply extends_doneParentScopes.
  - destruct (Hc2 j Hj Hout) as [Hr Hc].
    destruct He1 as (S & D & -> & HS & HD). done.
Qed.

Lemma grows_extends tc tc' : extends tc tc' →
  doneParentScopes tc' = doneParentScopes tc → grows tc tc'.
Proof. intros He Hd. split; [done|]. intros j Hj Hn. rewrite Hd in Hj. done. Qed.

(** ** Ancestor expansion *)

Lemma addParentScopes_unfold o fuel i tc :
  addParentScopes o fuel i tc =
  if (i <? 0) || (len (scopes tc) <=? i) then Ok tc
  else if bool_decide (i ∈ doneParentScopes tc) then Ok tc
  else match fuel with
       | O => Err OutOfFuel
       | S fuel' =>
           foldM (scopeStep (addParentScopes o fuel'))
                 (rangeKeys o (SiteScopes i) (default ∅ (scopes tc !! Z.to_nat i)))
                 (set_doneParentScopes ({[i]} ∪ doneParentScopes tc) tc)
       end.
Proof. destruct fuel; reflexivity. Qed.

Lemma rangeKeys_elem o site (m : gset Z) x : x ∈ rangeKeys o site m ↔ x ∈ m.
Proof.
  unfold rangeKeys. rewrite (order_perm o site (elements m)). apply elem_of_elements.
Qed.

Lemma stepDone_mono tc S D S' D' s :
  S ⊆ S' → D ⊆ D' → stepDone tc S D s → stepDone tc S' D' s.
Proof.
  intros HS HD [H0 H]. split; [done|]. intros hs H1 H2.
  destruct (H hs H1 H2) as [Ha Hb]. split; [set_solver|].
  intros Hl Hr. apply HD. by apply Hb.
Qed.

Lemma scopeStep_grows (recurse : Z → TreeContext → res TreeContext) tc s tc' :
  (∀ i t t', recurse i t = Ok t' →
     grows t t' ∧ (0 ≤ i < len (scopes t) → i ∈ doneParentScopes t')) →
  scopeStep recurse tc s = Ok tc' →
  grows tc tc' ∧ stepDone tc (showLines tc') (doneParentScopes tc') s.
Proof.
  intros Hrec. unfold scopeStep.
  destruct (Z.ltb_spec s 0) as [|Hs]; [done|].
  destruct (header tc !! Z.to_nat s) as [hs|] eqn:Eh; [|done].
  destruct (Z.leb_spec 2 (len hs)) as [Hlen|Hlen].
  2:{ intros [= <-]. split; [apply grows_refl|]. split; [done|].
      intros hs' Hh' H2. assert (hs' = hs) as -> by congruence. lia. }
  rewrite revealHeader_eq.
  set (tc1 := set_showLines _ tc).
  assert (extends tc tc1) as He1.
  { apply extends_set_showLines. set_solver. }
  assert (grows tc tc1) as Hg1 by (by apply grows_extends).
  destruct (lastLine tc1) eqn:El.
  - intros Hr. apply Hrec in Hr as [Hg Hin].
    split; [by eapply grows_trans|].
    split; [done|]. intros hs' Hh' _. assert (hs' = hs) as -> by congruence. split.
    + destruct Hg as [He _]. apply extends_showLines in He.
      subst tc1. cbn in He. set_solver.
    + intros _ Hr. apply Hin. by destruct tc.
  - intros [= <-]. split; [done|]. split; [done|].
    intros hs' Hh' _. assert (hs' = hs) as -> by congruence.
    split; [subst tc1; cbn; set_solver|].
    intros Hl. subst tc1. destruct tc; cbn in *. congruence.
Qed.

Lemma foldM_scopeStep_grows (recurse : Z → TreeContext → res TreeContext) l :
  (∀ i t t', recurse i t = Ok t' →
     grows t t' ∧ (0 ≤ i < len (scopes t) → i ∈ doneParentScopes t')) →
  ∀ tc tc', foldM (scopeStep recurse) l tc = Ok tc' →
  grows tc tc'
  ∧ ∀ s, s ∈ l → stepDone tc (showLines tc') (doneParentScopes tc') s.
Proof.
  intros Hrec. induction l as [|s l IH]; intros tc tc'.
  - intros [= <-]. split; [apply grows_refl|]. intros s Hs. by apply elem_of_nil in Hs.
  - cbn [foldM]. destruct (scopeStep recurse tc s) as [tc1|] eqn:E1; [|done].
    cbn [bind]. intros Hf.
    apply (scopeStep_grows _ _ _ _ Hrec) in E1 as [Hg1 Hd1].
    apply IH in Hf as [Hg2 Hd2].
    split; [by eapply grows_trans|].
    intros s' [->|Hs']%elem_of_cons.
    + eapply stepDone_mono; [..|exact Hd1].
      * apply extends_showLines, Hg2.
      * apply extends_doneParentScopes, Hg2.
    + specialize (Hd2 s' Hs'). destruct Hg1 as [(S & D & -> & _ & _) _]. done.
Qed.

(** A call that returns has expanded [i] (when [i] is an index of the
    scope slice) and left the context closed at every index it expanded. *)
Lemma addParentScopes_grows o fuel : ∀ i tc tc',
  addParentScopes o fuel i tc = Ok tc' →
  grows tc tc' ∧ (0 ≤ i < len (scopes tc) → i ∈ doneParentScopes tc').
Proof.
  induction fuel as [|fuel IH]; intros i tc tc'; rewrite addParentScopes_unfold.
  - destruct (_ || _) eqn:E.
    { intros [= <-]. split; [apply grows_refl|]. zbool_hyp E. }
    case_bool_decide; [|done]. intros [= <-]. split; [apply grows_refl|done].
  - destruct (_ || _) eqn:E.
    { intros [= <-]. split; [apply grows_refl|]. zbool_hyp E. }
    case_bool_decide as Hd.
    { intros [= <-]. split; [apply grows_refl|done]. }
    intros Hf. apply (foldM_scopeStep_grows _ _ IH) in Hf as [Hg Hs].
    set (tc1 := set_doneParentScopes _ tc) in *.
    assert (i ∈ doneParentScopes tc') as Hi.
    { destruct Hg as [He _]. apply extends_doneParentScopes in He.
      subst tc1. cbn in He. set_solver. }
    split; [|done]. split.
    + eapply extends_trans; [apply (extends_done i)|apply Hg].
    + intros j Hj Hn. destruct (decide (j = i)) as [->|Hne].
      * split; [zbool_hyp E|].
        intros Sc s hs HSc Hin H0 Hh Hlen.
        assert (s ∈ rangeKeys o (SiteScopes i) (default ∅ (scopes tc1 !! Z.to_nat i))) as Hk.
        { apply rangeKeys_elem. subst tc1. cbn. by rewrite HSc. }
        destruct (Hs s Hk) as [_ Hpost].
        subst tc1. cbn in Hpost. by apply Hpost.
      * destruct Hg as [_ Hc]. apply (Hc j Hj).
        subst tc1. cbn. set_solver.
Qed.

Lemma elem_of_inRange tc i : i ∈ inRange tc ↔ 0 ≤ i < len (scopes tc).
Proof.
  unfold inRange. rewrite elem_of_list_to_set, elem_of_seqZ. lia.
Qed.

Lemma size_inRange tc : size (inRange tc) = length (scopes tc).
Proof.
  unfold inRange. rewrite size_list_to_set by apply NoDup_seqZ.
  rewrite length_seqZ. unfold len. lia.
Qed.

Lemma undone_extends tc tc' : extends tc tc' → (undone tc' ≤ undone tc)%nat.
Proof.
  intros (S & D & -> & HS & HD). unfold undone, inRange. cbn.
  apply subseteq_size. set_solver.
Qed.

Lemma undone_lt_fuelOf tc : (undone tc < fuelOf tc)%nat.
Proof.
  unfold undone, fuelOf. rewrite <- size_inRange.
  apply Nat.lt_succ_r, subseteq_size. set_solver.
Qed.

Lemma undone_mark i tc :
  0 ≤ i < len (scopes tc) → i ∉ doneParentScopes tc →
  (undone (set_doneParentScopes ({[i]} ∪ doneParentScopes tc) tc) < undone tc)%nat.
Proof.
  intros Hi Hn. unfold undone. apply subset_size.
  assert (i ∈ inRange tc) as Hin by (by apply elem_of_inRange).
  unfold inRange in *. cbn. set_solver.
Qed.

Lemma wfIndex_lookup tc i Sc s :
  wfIndex tc → scopes tc !! i = Some Sc → s ∈ Sc → 0 ≤ s < len (header tc).
Proof.
  intros Hwf HSc Hs. unfold wfIndex in Hwf.
  rewrite Forall_lookup in Hwf. by apply (Hwf i Sc HSc).
Qed.

Lemma foldM_scopeStep_total (recurse : Z → TreeContext → res TreeContext) (fuel : nat) l :
  (∀ i t, wfIndex t → (undone t < fuel)%nat → ∃ t', recurse i t = Ok t') →
  (∀ i t t', recurse i t = Ok t' →
     grows t t' ∧ (0 ≤ i < len (scopes t) → i ∈ doneParentScopes t')) →
  ∀ tc, wfIndex tc → (undone tc < fuel)%nat →
    (∀ s, s ∈ l → 0 ≤ s < len (header tc)) →
    ∃ tc', foldM (scopeStep recurse) l tc = Ok tc'.
Proof.
  intros Htot Hrec. induction l as [|s l IH]; intros tc Hwf Hu Hl.
  - by eexists.
  - cbn [foldM].
    assert (∃ tc1, scopeStep recurse tc s = Ok tc1) as [tc1 E1].
    { unfold scopeStep.
      assert (0 ≤ s < len (header tc)) as Hs by (apply Hl; by left).
      destruct (Z.ltb_spec s 0); [lia|].
      destruct (header tc !! Z.to_nat s) as [hs|] eqn:Eh.
      2:{ apply lookup_ge_None in Eh. unfold len in Hs. lia. }
      destruct (2 <=? len hs); [|by eexists].
      rewrite revealHeader_eq.
      destruct (lastLine _); [|by eexists].
      apply Htot; [done|]. by destruct tc. }
    rewrite E1. cbn [bind].
    pose proof (scopeStep_grows _ _ _ _ Hrec E1) as [[He _] _].
    apply IH.
    + by eapply extends_wfIndex.
    + pose proof (undone_extends _ _ He). lia.
    + intros s' Hs'. destruct He as (S & D & -> & _ & _). cbn.
      apply Hl. by right.
Qed.

(** A well-formed index and a bound above the number of indices still
    to expand make [addParentScopes] return. *)
Lemma addParentScopes_total o fuel : ∀ i tc,
  wfIndex tc → (undone tc < fuel)%nat → ∃ tc', addParentScopes o fuel i tc = Ok tc'.
Proof.
  induction fuel as [|fuel IH]; intros i tc Hwf Hu; [lia|].
  rewrite addParentScopes_unfold.
  destruct (_ || _) eqn:E; [by eexists|].
  case_bool_decide as Hd; [by eexists|].
  assert (0 ≤ i < len (scopes tc)) as Hi by zbool_hyp E.
  apply (foldM_scopeStep_total _ fuel).
  - apply IH.
  - apply addParentScopes_grows.
  - done.
  - pose proof (undone_mark i tc Hi Hd). lia.
  - intros s Hs. apply rangeKeys_elem in Hs. cbn in *.
    destruct (scopes tc !! Z.to_nat i) as [Sc|] eqn:ESc; [|by apply elem_of_empty in Hs].
    by eapply wfIndex_lookup.
Qed.

Lemma foldM_scopeStep_minimal (recurse : Z → TreeContext → res TreeContext)
    (tc0 : TreeContext) (S D : gset Z) l :
  (∀ i t t', recurse i t = Ok t' →
     grows t t' ∧ (0 ≤ i < len (scopes t) → i ∈ doneParentScopes t')) →
  (∀ i t t', recurse i t = Ok t' → extends tc0 t →
     showLines t ⊆ S → doneParentScopes t ⊆ D →
     (0 ≤ i < len (scopes t) → i ∈ D) →
     showLines t' ⊆ S ∧ doneParentScopes t' ⊆ D) →
  (∀ s, s ∈ l → 0 ≤ s → stepDone tc0 S D s) →
  ∀ tc tc', foldM (scopeStep recurse) l tc = Ok tc' →
    extends tc0 tc → showLines tc ⊆ S → doneParentScopes tc ⊆ D →
    showLines tc' ⊆ S ∧ doneParentScopes tc' ⊆ D.
Proof.
  intros Hrec Hmin. induction l as [|s l IH]; intros Hl tc tc'.
  - by intros [= <-].
  - cbn [foldM]. destruct (scopeStep recurse tc s) as [tc1|] eqn:E1; [|done].
    cbn [bind]. intros Hf He HS HD.
    pose proof (scopeStep_grows _ _ _ _ Hrec E1) as [[He1 _] _].
    assert (showLines tc1 ⊆ S ∧ doneParentScopes tc1 ⊆ D) as [HS1 HD1].
    { revert E1. unfold scopeStep.
      destruct (Z.ltb_spec s 0) as [|Hs]; [done|].
      destruct (header tc !! Z.to_nat s) as [hs|] eqn:Eh; [|done].
      destruct (Z.leb_spec 2 (len hs)) as [Hlen|Hlen]; [|by intros [= <-]].
      destruct (Hl s ltac:(by left) Hs) as [_ Hpost].
      destruct He as (S0 & D0 & -> & HS0 & HD0). cbn in *.
      destruct (Hpost hs Eh Hlen) as [Hhl Hlast].
      rewrite revealHeader_eq.
      set (t1 := set_showLines _ _).
      assert (extends tc0 t1) as Het.
      { exists (showLines t1), (doneParentScopes t1). subst t1. cbn.
        split; [by destruct tc0|]. split; set_solver. }
      assert (showLines t1 ⊆ S) as HSt by (subst t1; cbn in *; set_solver).
      destruct (lastLine t1) eqn:El; [|by intros [= <-]].
      intros Hr. apply (Hmin _ _ _ Hr Het HSt HD).
      intros Hrange. apply Hlast; [done|]. by destruct tc0. }
    apply (IH ltac:(intros s' Hs'; apply Hl; by right) tc1 tc' Hf);
      [by eapply extends_trans|done|done].
Qed.

(** What a call adds lies in every pair of sets that holds the context it
    starts from and the index [i], and that is closed at each index not
    expanded before. *)
Lemma addParentScopes_minimal o fuel (tc0 : TreeContext) (S D : gset Z) :
  (∀ j, j ∈ D → j ∉ doneParentScopes tc0 → 0 ≤ j < len (scopes tc0) →
        closedAt tc0 S D j) →
  ∀ i tc tc', addParentScopes o fuel i tc = Ok tc' →
    extends tc0 tc → showLines tc ⊆ S → doneParentScopes tc ⊆ D →
    (0 ≤ i < len (scopes tc) → i ∈ D) →
    showLines tc' ⊆ S ∧ doneParentScopes tc' ⊆ D.
Proof.
  intros Hclosed. induction fuel as [|fuel IH]; intros i tc tc';
    rewrite addParentScopes_unfold.
  - destruct (_ || _); [by intros [= <-]|]. case_bool_decide; [by intros [= <-]|done].
  - destruct (_ || _) eqn:E; [by intros [= <-]|].
    case_bool_decide as Hd; [by intros [= <-]|].
    intros Hf He HS HD Hi.
    assert (0 ≤ i < len (scopes tc)) as Hr by zbool_hyp E.
    specialize (Hi Hr).
    assert (i ∉ doneParentScopes tc0) as Hn0.
    { apply extends_doneParentScopes in He. set_solver. }
    assert (scopes tc = scopes tc0 ∧ len (scopes tc) = len (scopes tc0)) as [Esc Elen].
    { by destruct He as (S0 & D0 & -> & _ & _). }
    assert (∀ s, s ∈ rangeKeys o (SiteScopes i)
                     (default ∅ (scopes (set_doneParentScopes ({[i]} ∪ doneParentScopes tc) tc)
                                  !! Z.to_nat i)) →
                 0 ≤ s → stepDone tc0 S D s) as Hkeys.
    { intros s Hs Hs0. apply rangeKeys_elem in Hs. cbn in Hs. rewrite Esc in Hs.
      destruct (scopes tc0 !! Z.to_nat i) as [Sc|] eqn:ESc; [|by apply elem_of_empty in Hs].
      split; [done|]. intros hs Hh Hlen.
      apply (Hclosed i Hi Hn0 ltac:(lia) Sc s hs); done. }
    apply (foldM_scopeStep_minimal (addParentScopes o fuel) tc0 S D _
             (addParentScopes_grows o fuel) IH Hkeys _ _ Hf).
    + eapply extends_trans; [exact He|apply extends_done].
    + done.
    + cbn. set_solver.
Qed.

(** ** Loops that may panic *)

Lemma foldM_inv {A B} (I : A → Prop) (f : A → B → res A) l a a' :
  I a → (∀ a b a', I a → f a b = Ok a' → I a') → foldM f l a = Ok a' → I a'.
Proof.
  intros Ha Hstep. revert a Ha. induction l as [|b l IH]; intros a Ha.
  - by intros [= <-].
  - cbn [foldM]. destruct (f a b) as [a1|] eqn:E; [|done]. cbn [bind].
    apply IH. by eapply Hstep.
Qed.

Lemma foldM_total {A B} (I : A → Prop) (f : A → B → res A) l a :
  I a → (∀ a b, I a → ∃ a', f a b = Ok a' ∧ I a') →
  ∃ a', foldM f l a = Ok a' ∧ I a'.
Proof.
  intros Ha Hstep. revert a Ha. induction l as [|b l IH]; intros a Ha.
  - by exists a.
  - cbn [foldM]. destruct (Hstep a b Ha) as (a1 & -> & Ha1). cbn [bind]. by apply IH.
Qed.

Lemma foldM_app {A B} (f : A → B → res A) l1 l2 a :
  foldM f (l1 ++ l2) a = bind (foldM f l1 a) (foldM f l2).
Proof.
  revert a. induction l1 as [|b l1 IH]; intros a; [done|].
  cbn [foldM app]. destruct (f a b); [apply IH|done].
Qed.

(** ** The passes of the expander extend the context *)

Lemma fuelOf_extends tc tc' : extends tc tc' → fuelOf tc' = fuelOf tc.
Proof. by intros (S & D & -> & _ & _). Qed.

Lemma addParentScopes_extends o fuel i tc tc' :
  addParentScopes o fuel i tc = Ok tc' → extends tc tc'.
Proof. intros H. by apply addParentScopes_grows in H as [[He _] _]. Qed.

Lemma list_to_set_rangeKeys o site (m : gset Z) :
  list_to_set (rangeKeys o site m) = m.
Proof. apply set_eq. intros x. rewrite elem_of_list_to_set. apply rangeKeys_elem. Qed.

Lemma seedPass_eq o tc :
  seedPass o tc = set_showLines (linesOfInterest tc ∪ showLines tc) tc.
Proof. unfold seedPass. by rewrite foldl_show, list_to_set_rangeKeys. Qed.

Lemma list_to_set_flat_map_perm (f : Z → list Z) (l1 l2 : list Z) :
  l1 ≡ₚ l2 → list_to_set (flat_map f l1) =@{gset Z} list_to_set (flat_map f l2).
Proof.
  intros Hp. apply set_eq. intros x.
  rewrite !elem_of_list_to_set, !list_elem_of_In, !in_flat_map.
  split; intros (y & Hy & Hx); exists y; (split; [|done]);
    apply list_elem_of_In; [rewrite <- Hp|rewrite Hp]; by apply list_elem_of_In.
Qed.

(** The lines the padding pass adds. *)
Lemma padLines_eq o tc :
  padLines o tc =
  set_showLines
    (list_to_set (flat_map (fun line =>
                     filter (fun nl => ¬ (nl < 0 ∨ numLines tc ≤ nl))
                            (seqZ (line - loiPad tc) (2 * loiPad tc + 1)))
                  (elements (showLines tc)))
     ∪ showLines tc) tc.
Proof.
  unfold padLines. rewrite foldl_show. f_equal. f_equal.
  apply list_to_set_flat_map_perm, order_perm.
Qed.

Lemma padPass_extends o tc : extends tc (padPass o tc).
Proof.
  unfold padPass. destruct (0 <? loiPad tc); [|apply extends_refl].
  rewrite padLines_eq. apply extends_set_showLines. set_solver.
Qed.

Lemma seedPass_extends o tc : extends tc (seedPass o tc).
Proof. rewrite seedPass_eq. apply extends_set_showLines. set_solver. Qed.

Lemma marginPass_extends tc : extends tc (marginPass tc).
Proof.
  unfold marginPass. destruct (0 <? margin tc); [apply extends_showRange|apply extends_refl].
Qed.

Lemma lastLinePass_extends o tc tc' : lastLinePass o tc = Ok tc' → extends tc tc'.
Proof.
  unfold lastLinePass. destruct (lastLine tc); [|intros [= <-]; apply extends_refl].
  intros H%addParentScopes_extends. eapply extends_trans; [apply extends_show|done].
Qed.

Lemma parentLoop_extends o l tc tc' :
  foldM (fun tc i => addParentScopes o (fuelOf tc) i tc) l tc = Ok tc' → extends tc tc'.
Proof.
  apply (foldM_inv (extends tc)); [apply extends_refl|].
  intros a b a' Ha H%addParentScopes_extends. by eapply extends_trans.
Qed.

Lemma parentPass_extends o tc tc' : parentPass o tc = Ok tc' → extends tc tc'.
Proof.
  unfold parentPass. destruct (parentContext tc); [|intros [= <-]; apply extends_refl].
  apply parentLoop_extends.
Qed.

Lemma childLoop_extends o limit children : ∀ tc tc',
  childLoop o limit children tc = Ok tc' → extends tc tc'.
Proof.
  induction children as [|c cs IH]; intros tc tc'; cbn [childLoop].
  - intros [= <-]. apply extends_refl.
  - destruct (limit <? _); [intros [= <-]; apply extends_refl|].
    destruct (addParentScopes _ _ _ _) as [tc1|] eqn:E; [|done]. cbn [bind].
    intros H%IH. apply addParentScopes_extends in E. by eapply extends_trans.
Qed.

Lemma addChildContext_extends o i tc tc' :
  addChildContext o i tc = Ok tc' → extends tc tc'.
Proof.
  unfold addChildContext.
  repeat (case_match; try (intros [= <-]; (apply extends_refl || apply extends_showRange))).
  apply childLoop_extends.
Qed.

Lemma childPass_extends o tc tc' : childPass o tc = Ok tc' → extends tc tc'.
Proof.
  unfold childPass. destruct (childContext tc); [|intros [= <-]; apply extends_refl].
  apply (foldM_inv (extends tc)); [apply extends_refl|].
  intros a b a' Ha H%addChildContext_extends. by eapply extends_trans.
Qed.

(** ** The exchange sort *)

Lemma sift_perm {A} (before : A → A → bool) rest : ∀ x,
  (sift before x rest).1 :: (sift before x rest).2 ≡ₚ x :: rest.
Proof.
  induction rest as [|y r IH]; intros x; cbn [sift]; [done|].
  destruct (before y x).
  - specialize (IH y). destruct (sift before y r) as [m r']. cbn in *.
    by rewrite (Permutation_swap x m r'), IH.
  - specialize (IH x). destruct (sift before x r) as [m r']. cbn in *.
    rewrite (Permutation_swap y m r'), IH. apply Permutation_swap.
Qed.

Lemma sift_length {A} (before : A → A → bool) rest : ∀ x,
  length (sift before x rest).2 = length rest.
Proof.
  induction rest as [|y r IH]; intros x; cbn [sift]; [done|].
  destruct (before y x).
  - specialize (IH y). destruct (sift before y r). cbn in *. by rewrite IH.
  - specialize (IH x). destruct (sift before x r). cbn in *. by rewrite IH.
Qed.

Lemma exchangeSortAux_perm {A} (before : A → A → bool) n : ∀ out,
  exchangeSortAux before n out ≡ₚ out.
Proof.
  induction n as [|n IH]; intros out; [done|].
  destruct out as [|x rest]; [done|]. cbn [exchangeSortAux].
  pose proof (sift_perm before rest x) as Hp.
  destruct (sift before x rest) as [m r']. cbn in Hp.
  by rewrite IH.
Qed.

Lemma exchangeSort_perm {A} (before : A → A → bool) out :
  exchangeSort before out ≡ₚ out.
Proof. apply exchangeSortAux_perm. Qed.

(** After one run of the inner loop the slot holds a least element. *)
Lemma sift_least rest : ∀ x,
  (sift Z.ltb x rest).1 ≤ x ∧ Forall (Z.le (sift Z.ltb x rest).1) (sift Z.ltb x rest).2.
Proof.
  induction rest as [|y r IH]; intros x; cbn [sift fst snd]; [split; [lia|constructor]|].
  destruct (Z.ltb_spec y x).
  - specialize (IH y). destruct (sift Z.ltb y r) as [m r']. cbn in *.
    destruct IH as [Hm Hr]. split; [lia|]. constructor; [lia|done].
  - specialize (IH x). destruct (sift Z.ltb x r) as [m r']. cbn in *.
    destruct IH as [Hm Hr]. split; [lia|]. constructor; [lia|done].
Qed.

Lemma exchangeSortAux_sorted n : ∀ out,
  length out = n → StronglySorted Z.le (exchangeSortAux Z.ltb n out).
Proof.
  induction n as [|n IH]; intros out Hlen.
  - destruct out; [constructor|done].
  - destruct out as [|x rest]; [done|]. cbn [exchangeSortAux].
    pose proof (sift_least rest x) as [_ Hall].
    pose proof (sift_length Z.ltb rest x) as Hl.
    destruct (sift Z.ltb x rest) as [m r']. cbn in *.
    constructor.
    + apply IH. lia.
    + by rewrite exchangeSortAux_perm.
Qed.

(** [mapKeysSorted] returns the keys in ascending order, whatever order
    the map was walked in. *)
Lemma mapKeysSorted_sorted o (m : gset Z) :
  StronglySorted Z.le (mapKeysSorted o m) ∧ mapKeysSorted o m ≡ₚ elements m.
Proof.
  unfold mapKeysSorted, exchangeSort. split.
  - by apply exchangeSortAux_sorted.
  - rewrite exchangeSortAux_perm. apply order_perm.
Qed.

Lemma mapKeysSorted_order_irrelevant o1 o2 (m : gset Z) :
  mapKeysSorted o1 m = mapKeysSorted o2 m.
Proof.
  destruct (mapKeysSorted_sorted o1 m) as [S1 P1].
  destruct (mapKeysSorted_sorted o2 m) as [S2 P2].
  apply (StronglySorted_unique Z.le); [done..|]. by rewrite P1, P2.
Qed.

Lemma mapKeysSorted_elem o (m : gset Z) x : x ∈ mapKeysSorted o m ↔ x ∈ m.
Proof.
  destruct (mapKeysSorted_sorted o m) as [_ P]. rewrite P. apply elem_of_elements.
Qed.

(** ** Gap closing *)

Lemma foldl_copy (l : list Z) (c : gset Z) :
  foldl (fun c k => {[k]} ∪ c) c l = list_to_set l ∪ c.
Proof.
  revert c. induction l as [|x l IH]; intros c; cbn [foldl]; [set_solver|].
  rewrite IH. set_solver.
Qed.

Lemma fillGaps_subseteq sorted : ∀ c, c ⊆ fillGaps sorted c.
Proof.
  induction sorted as [|a rest IH]; intros c; cbn [fillGaps]; [done|].
  destruct rest as [|b rest']; [done|].
  etrans; [|apply IH]. destruct (_ =? _); set_solver.
Qed.

Lemma pickBlanks_subseteq tc rest : ∀ i c, c ⊆ pickBlanks tc i rest c.
Proof.
  induction rest as [|line rest IH]; intros i c; cbn [pickBlanks]; [done|].
  etrans; [|apply IH]. destruct (_ && _); set_solver.
Qed.

Lemma closeSmallGaps_eq o tc :
  closeSmallGaps o tc =
  set_showLines
    (pickBlanks tc 0 (lines tc) (fillGaps (mapKeysSorted o (showLines tc)) (showLines tc))) tc.
Proof.
  unfold closeSmallGaps. rewrite foldl_copy, list_to_set_rangeKeys.
  by rewrite (right_id_L ∅ (∪)).
Qed.

Lemma closeSmallGaps_extends o tc : extends tc (closeSmallGaps o tc).
Proof.
  rewrite closeSmallGaps_eq. apply extends_set_showLines.
  etrans; [|apply pickBlanks_subseteq]. apply fillGaps_subseteq.
Qed.

Lemma closeSmallGaps_order_irrelevant o1 o2 tc :
  closeSmallGaps o1 tc = closeSmallGaps o2 tc.
Proof. by rewrite !closeSmallGaps_eq, (mapKeysSorted_order_irrelevant o1 o2). Qed.

(** ** The passes return on a well-formed index *)

Lemma addParentScopes_fuelOf_total o i tc :
  wfIndex tc → ∃ tc', addParentScopes o (fuelOf tc) i tc = Ok tc'.
Proof. intros Hwf. apply addParentScopes_total; [done|apply undone_lt_fuelOf]. Qed.

Lemma lastLinePass_total o tc : wfIndex tc → ∃ tc', lastLinePass o tc = Ok tc'.
Proof.
  intros Hwf. unfold lastLinePass. destruct (lastLine tc); [|by eexists].
  apply addParentScopes_fuelOf_total.
  eapply extends_wfIndex; [apply extends_show|done].
Qed.

Lemma parentLoop_total o l tc :
  wfIndex tc →
  ∃ tc', foldM (fun tc i => addParentScopes o (fuelOf tc) i tc) l tc = Ok tc'.
Proof.
  intros Hwf.
  destruct (foldM_total wfIndex (fun tc i => addParentScopes o (fuelOf tc) i tc) l tc Hwf)
    as (tc' & H & _); [|by exists tc'].
  intros a b Ha. destruct (addParentScopes_fuelOf_total o b a Ha) as [a' Ha'].
  exists a'. split; [done|]. eapply extends_wfIndex; [|done].
  by eapply addParentScopes_extends.
Qed.

Lemma parentPass_total o tc : wfIndex tc → ∃ tc', parentPass o tc = Ok tc'.
Proof.
  intros Hwf. unfold parentPass. destruct (parentContext tc); [|by eexists].
  by apply parentLoop_total.
Qed.

Lemma childLoop_total o limit children : ∀ tc,
  wfIndex tc → ∃ tc', childLoop o limit children tc = Ok tc'.
Proof.
  induction children as [|c cs IH]; intros tc Hwf; cbn [childLoop]; [by eexists|].
  destruct (limit <? _); [by eexists|].
  destruct (addParentScopes_fuelOf_total o (startLineOf c) tc Hwf) as [tc1 E].
  rewrite E. cbn [bind]. apply IH.
  eapply extends_wfIndex; [|done]. by eapply addParentScopes_extends.
Qed.

Lemma addChildContext_total o i tc : wfIndex tc → ∃ tc', addChildContext o i tc = Ok tc'.
Proof.
  intros Hwf. unfold addChildContext.
  repeat (case_match; try by eexists). by apply childLoop_total.
Qed.

Lemma childPass_total o tc : wfIndex tc → ∃ tc', childPass o tc = Ok tc'.
Proof.
  intros Hwf. unfold childPass. destruct (childContext tc); [|by eexists].
  destruct (foldM_total wfIndex (fun tc i => addChildContext o i tc)
              (rangeKeys o SiteChildren (linesOfInterest tc)) tc Hwf)
    as (tc' & H & _); [|by exists tc'].
  intros a b Ha. destruct (addChildContext_total o b a Ha) as [a' Ha'].
  exists a'. split; [done|]. eapply extends_wfIndex; [|done].
  by eapply addChildContext_extends.
Qed.

(** ** [AddContext] as a whole *)

(** The stages of a call that gets past the empty-set test. *)
Lemma AddContext_stages o tc tc' :
  AddContext o tc = Ok tc' →
  Z.of_nat (size (linesOfInterest tc)) ≠ 0 →
  ∃ t1 t2 t3,
    lastLinePass o (padPass o (seedPass o tc)) = Ok t1
    ∧ parentPass o t1 = Ok t2
    ∧ childPass o t2 = Ok t3
    ∧ tc' = closeSmallGaps o (marginPass t3).
Proof.
  unfold AddContext. intros H Hne.
  destruct (Z.eqb_spec (Z.of_nat (size (linesOfInterest tc))) 0); [done|].
  destruct (lastLinePass _ _) as [t1|] eqn:E1; [|done]. cbn [bind] in H.
  destruct (parentPass o t1) as [t2|] eqn:E2; [|done]. cbn [bind] in H.
  destruct (childPass o t2) as [t3|] eqn:E3; [|done]. cbn [bind] in H.
  injection H as <-. by exists t1, t2, t3.
Qed.

Lemma AddContext_extends o tc tc' : AddContext o tc = Ok tc' → extends tc tc'.
Proof.
  intros H.
  destruct (decide (Z.of_nat (size (linesOfInterest tc)) = 0)) as [Hz|Hnz].
  { unfold AddContext in H. rewrite Hz in H. injection H as <-. apply extends_refl. }
  destruct (AddContext_stages _ _ _ H Hnz) as (t1 & t2 & t3 & H1 & H2 & H3 & ->).
  apply lastLinePass_extends in H1. apply parentPass_extends in H2.
  apply childPass_extends in H3.
  eapply extends_trans; [apply seedPass_extends|].
  eapply extends_trans; [apply padPass_extends|].
  eapply extends_trans; [exact H1|].
  eapply extends_trans; [exact H2|].
  eapply extends_trans; [exact H3|].
  eapply extends_trans; [apply marginPass_extends|apply closeSmallGaps_extends].
Qed.

Lemma AddContext_total o tc : wfIndex tc → ∃ tc', AddContext o tc = Ok tc'.
Proof.
  intros Hwf. unfold AddContext.
  destruct (_ =? 0); [by eexists|].
  assert (wfIndex (padPass o (seedPass o tc))) as Hwf0.
  { eapply extends_wfIndex; [apply padPass_extends|].
    eapply extends_wfIndex; [apply seedPass_extends|done]. }
  destruct (lastLinePass_total o _ Hwf0) as [t1 H1]. rewrite H1. cbn [bind].
  assert (wfIndex t1) as Hwf1.
  { eapply extends_wfIndex; [by eapply lastLinePass_extends|done]. }
  destruct (parentPass_total o _ Hwf1) as [t2 H2]. rewrite H2. cbn [bind].
  assert (wfIndex t2) as Hwf2.
  { eapply extends_wfIndex; [by eapply parentPass_extends|done]. }
  destruct (childPass_total o _ Hwf2) as [t3 H3]. rewrite H3. cbn [bind].
  by eexists.
Qed.

(** After a call every line of interest is a line to show. *)
Lemma AddContext_seeded o tc tc' :
  AddContext o tc = Ok tc' → linesOfInterest tc' ⊆ showLines tc'.
Proof.
  intros H.
  destruct (decide (Z.of_nat (size (linesOfInterest tc)) = 0)) as [Hz|Hnz].
  { unfold AddContext in H. rewrite Hz in H. injection H as <-.
    assert (size (linesOfInterest tc) = 0%nat) as Hs by lia.
    apply size_empty_inv in Hs. set_solver. }
  rewrite (extends_linesOfInterest _ _ (AddContext_extends _ _ _ H)).
  destruct (AddContext_stages _ _ _ H Hnz) as (t1 & t2 & t3 & H1 & H2 & H3 & ->).
  apply lastLinePass_extends in H1. apply parentPass_extends in H2.
  apply childPass_extends in H3.
  assert (extends (seedPass o tc) (closeSmallGaps o (marginPass t3))) as He.
  { eapply extends_trans; [apply padPass_extends|].
    eapply extends_trans; [exact H1|].
    eapply extends_trans; [exact H2|].
    eapply extends_trans; [exact H3|].
    eapply extends_trans; [apply marginPass_extends|apply closeSmallGaps_extends]. }
  apply extends_showLines in He. rewrite seedPass_eq in He. cbn in He. set_solver.
Qed.

Lemma AddLinesOfInterest_eq o lineNums tc :
  AddLinesOfInterest o lineNums tc =
  set_linesOfInterest (lineNums ∪ linesOfInterest tc) tc.
Proof.
  unfold AddLinesOfInterest.
  rewrite <- (list_to_set_rangeKeys o SiteAddLOI lineNums) at 2.
  generalize (rangeKeys o SiteAddLOI lineNums). intros l. revert tc.
  induction l as [|x l IH]; intros tc; cbn [foldl].
  - rewrite list_to_set_nil, (left_id_L ∅ (∪)). by destruct tc.
  - rewrite IH. cbn.
    assert (list_to_set l ∪ ({[x]} ∪ linesOfInterest tc)
            = list_to_set (x :: l) ∪ linesOfInterest tc :> gset Z) as E by set_solver.
    destruct tc; cbn in *. by rewrite E.
Qed.

Lemma AddLinesOfInterest_wfIndex o lineNums tc :
  wfIndex tc → wfIndex (AddLinesOfInterest o lineNums tc).
Proof. by rewrite AddLinesOfInterest_eq. Qed.

Lemma runOp_total o tc op :
  wfIndex tc → ∃ tc', runOp o tc op = Ok tc' ∧ wfIndex tc'.
Proof.
  intros Hwf. destruct op as [lineNums|]; cbn [runOp].
  - eexists. split; [done|]. by apply AddLinesOfInterest_wfIndex.
  - destruct (AddContext_total o tc Hwf) as [tc' H]. exists tc'. split; [done|].
    eapply extends_wfIndex; [by eapply AddContext_extends|done].
Qed.

Lemma runOps_total o ops tc :
  wfIndex tc → ∃ tc', runOps o ops tc = Ok tc' ∧ wfIndex tc'.
Proof. intros Hwf. apply (foldM_total wfIndex); [done|]. intros a b. apply runOp_total. Qed.

Lemma runOps_app o ops1 ops2 tc :
  runOps o (ops1 ++ ops2) tc = bind (runOps o ops1 tc) (runOps o ops2).
Proof. apply foldM_app. Qed.

Lemma repeated_AddContext_seeded o k : ∀ tc,
  wfIndex tc → linesOfInterest tc ⊆ showLines tc →
  ∃ tc', runOps o (replicate k OpAddContext) tc = Ok tc'
         ∧ linesOfInterest tc' ⊆ showLines tc'.
Proof.
  induction k as [|k IH]; intros tc Hwf Hsub; [by exists tc|].
  cbn [replicate]. unfold runOps. cbn [foldM runOp].
  destruct (AddContext_total o tc Hwf) as [tc1 H1]. rewrite H1. cbn [bind].
  apply IH.
  - eapply extends_wfIndex; [by eapply AddContext_extends|done].
  - by eapply AddContext_seeded.
Qed.

(** C4: once a call of [AddContext] has followed the last call of
    [AddLinesOfInterest], every line of interest is a line to show; and
    each pass of the expansion (seed, padding, last line, ancestors,
    descendants, margin, gap closing) returns and keeps every line that
    was already shown. *)
Theorem linesOfInterest_shown (o : IterOrder) (before : list Op) (k : nat)
    (tc : TreeContext) :
  wfIndex tc →
  (∃ tc', runOps o (before ++ OpAddContext :: replicate k OpAddContext) tc = Ok tc'
          ∧ linesOfInterest tc' ⊆ showLines tc')
  ∧ showLines tc ⊆ showLines (seedPass o tc)
  ∧ showLines tc ⊆ showLines (padPass o tc)
  ∧ (∃ t, lastLinePass o tc = Ok t ∧ showLines tc ⊆ showLines t)
  ∧ (∃ t, parentPass o tc = Ok t ∧ showLines tc ⊆ showLines t)
  ∧ (∃ t, childPass o tc = Ok t ∧ showLines tc ⊆ showLines t)
  ∧ showLines tc ⊆ showLines (marginPass tc)
  ∧ showLines tc ⊆ showLines (closeSmallGaps o tc).
Proof.
  intros Hwf. repeat split.
  - rewrite runOps_app.
    destruct (runOps_total o before tc Hwf) as (tc1 & H1 & Hwf1). rewrite H1. cbn [bind].
    unfold runOps. cbn [foldM runOp].
    destruct (AddContext_total o tc1 Hwf1) as [tc2 H2]. rewrite H2. cbn [bind].
    apply repeated_AddContext_seeded.
    + eapply extends_wfIndex; [by eapply AddContext_extends|done].
    + by eapply AddContext_seeded.
  - apply extends_showLines, seedPass_extends.
  - apply extends_showLines, padPass_extends.
  - destruct (lastLinePass_total o tc Hwf) as [t H]. exists t. split; [done|].
    by eapply extends_showLines, lastLinePass_extends.
  - destruct (parentPass_total o tc Hwf) as [t H]. exists t. split; [done|].
    by eapply extends_showLines, parentPass_extends.
  - destruct (childPass_total o tc Hwf) as [t H]. exists t. split; [done|].
    by eapply extends_showLines, childPass_extends.
  - apply extends_showLines, marginPass_extends.
  - apply extends_showLines, closeSmallGaps_extends.
Qed.

Lemma linesOfInterest_shown_witness :
  ∃ tc', runOps ascending
           ([OpAddLinesOfInterest {[2; -1; 9]}; OpAddContext; OpAddLinesOfInterest {[1]}]
            ++ OpAddContext :: replicate 1 OpAddContext) twoOwnersContext = Ok tc'
         ∧ linesOfInterest tc' ⊆ showLines tc'.
Proof.
  refine (proj1 (linesOfInterest_shown ascending _ 1 twoOwnersContext _)).
  apply (bool_decide_unpack _). vm_compute. exact I.
Defined.

(** ** Renderer *)

Lemma formatLines_indices tc rest : ∀ i pe j text,
  ChunkLine j text ∈ formatLines tc i rest pe → i ≤ j < i + len rest.
Proof.
  induction rest as [|line rest IH]; intros i pe j text; cbn [formatLines].
  - intros H. by apply elem_of_nil in H.
  - unfold len in *. cbn [length].
    case_bool_decide.
    + intros [[= -> ->]|H']%elem_of_cons; [lia|]. apply IH in H'. lia.
    + destruct pe.
      * intros [[=]|H']%elem_of_cons. apply IH in H'. lia.
      * intros H'. apply IH in H'. lia.
Qed.

Lemma FormatChunks_indices tc j text :
  ChunkLine j text ∈ FormatChunks tc → 0 ≤ j < len (lines tc).
Proof.
  unfold FormatChunks. destruct (_ =? 0); [intros H; by apply elem_of_nil in H|].
  intros [H|H]%elem_of_app.
  - destruct (color tc); [|by apply elem_of_nil in H].
    apply list_elem_of_singleton in H. done.
  - apply formatLines_indices in H. lia.
Qed.

(** C10: on a context built by [NewTreeContext], any sequence of
    [AddLinesOfInterest] (with arbitrary indices, negative or beyond the
    file) and [AddContext] calls returns without a slice index out of
    range, and [Format] then prints source lines only. *)
Theorem no_index_out_of_range fname src options (root : Node) (o : IterOrder)
    (ops : list Op) :
  ∃ tc tc',
    NewTreeContext fname src options root = Ok tc
    ∧ runOps o ops tc = Ok tc'
    ∧ ∀ i text, ChunkLine i text ∈ FormatChunks tc' → 0 ≤ i < len (lines tc').
Proof.
  destruct (NewTreeContext_ok fname src options root) as (tc & h & Hok & _ & _ & _ & _ & Hwf).
  destruct (runOps_total o ops tc Hwf) as (tc' & Hrun & _).
  exists tc, tc'. split; [done|]. split; [done|].
  intros i text. apply FormatChunks_indices.
Qed.

Lemma formatLines_runs tc rest : ∀ i pe,
  0 ≤ i →
  (i ∉ showLines tc → pe = (i =? 0) || bool_decide (i - 1 ∈ showLines tc)) →
  formatLines tc i rest pe = flat_map (chunksOfLine tc) (zip (seqZ i (len rest)) rest).
Proof.
  induction rest as [|line rest IH]; intros i pe Hi Hpe; [done|].
  unfold len. cbn [length]. rewrite seqZ_cons by lia.
  replace (Z.pred (Z.of_nat (S (length rest)))) with (len rest) by (unfold len; lia).
  cbn [zip zip_with flat_map formatLines]. unfold chunksOfLine at 1. cbn [fst snd].
  unfold startsHiddenRun.
  destruct (decide (i ∈ showLines tc)) as [Hs|Hs].
  - rewrite !(bool_decide_true (i ∈ showLines tc)) by done.
    cbn [app]. f_equal. replace (Z.succ i) with (i + 1) by lia.
    apply IH; [lia|]. intros _.
    replace (i + 1 - 1) with i by lia.
    rewrite bool_decide_true by done. by rewrite orb_true_r.
  - rewrite !(bool_decide_false (i ∈ showLines tc)) by done.
    cbn [negb andb]. rewrite <- (Hpe Hs).
    assert (formatLines tc (i + 1) rest false
            = flat_map (chunksOfLine tc) (zip (seqZ (Z.succ i) (len rest)) rest)) as E.
    { replace (Z.succ i) with (i + 1) by lia.
      apply IH; [lia|]. intros _.
      replace (i + 1 - 1) with i by lia.
      rewrite bool_decide_false by done.
      by assert ((i + 1 =? 0) = false) as -> by lia. }
    destruct pe; cbn [app]; by rewrite E.
Qed.

Lemma countMarkers_app cs1 cs2 :
  countMarkers (cs1 ++ cs2) = (countMarkers cs1 + countMarkers cs2)%nat.
Proof. unfold countMarkers. by rewrite List.filter_app, length_app. Qed.

Lemma countMarkers_runs tc (l : list string) : ∀ i,
  countMarkers (flat_map (chunksOfLine tc) (zip (seqZ i (len l)) l))
  = length (List.filter (startsHiddenRun tc) (seqZ i (len l))).
Proof.
  induction l as [|line l IH]; intros i; [done|].
  unfold len. cbn [length]. rewrite seqZ_cons by lia.
  replace (Z.pred (Z.of_nat (S (length l)))) with (len l) by (unfold len; lia).
  cbn [zip zip_with flat_map List.filter]. rewrite countMarkers_app, IH.
  unfold chunksOfLine. cbn [fst snd].
  destruct (startsHiddenRun tc i) eqn:Es.
  - unfold startsHiddenRun in Es.
    destruct (decide (i ∈ showLines tc)) as [Hs|Hs].
    + rewrite bool_decide_true in Es by done. done.
    + rewrite bool_decide_false by done. done.
  - destruct (bool_decide (i ∈ showLines tc)); done.
Qed.



(** ** Gap closing: blank lines *)

Lemma pickBlanks_spec tc rest : ∀ i c,
  0 ≤ i →
  (∀ k, rest !! k = lines tc !! (Z.to_nat i + k)%nat) →
  (∀ j, j ≤ i → j ∈ pickBlanks tc i rest c ↔ j ∈ c)
  ∧ (∀ j, i ≤ j → j ∈ pickBlanks tc i rest c →
          textAt tc j = true → j < numLines tc - 2 → blankAt tc (j + 1) = true →
          j + 1 ∈ pickBlanks tc i rest c).
Proof.
  induction rest as [|line rest IH]; intros i c Hi Hrest; cbn [pickBlanks].
  - split; [done|]. intros j Hj _ Ht. exfalso. unfold textAt in Ht.
    specialize (Hrest (Z.to_nat j - Z.to_nat i)%nat).
    replace (Z.to_nat i + (Z.to_nat j - Z.to_nat i))%nat with (Z.to_nat j) in Hrest by lia.
    rewrite <- Hrest in Ht. done.
  - match goal with |- context [pickBlanks tc (i + 1) rest ?x] => set (c' := x) end.
    destruct (IH (i + 1) c') as [IH1 IH2]; [lia| |].
    { intros k. transitivity ((line :: rest) !! S k); [done|].
      rewrite Hrest. f_equal. lia. }
    assert (∀ j, j ≤ i → j ∈ c' ↔ j ∈ c) as Hc'.
    { intros j Hj. subst c'. destruct (_ && _); [|done]. set_solver by lia. }
    split.
    + intros j Hj. rewrite IH1 by lia. by apply Hc'.
    + intros j Hj Hin Ht Hn Hb.
      destruct (decide (j = i)) as [->|Hne]; [|apply IH2; [lia|done..]].
      apply IH1; [lia|].
      apply IH1 in Hin; [|lia]. apply Hc' in Hin; [|lia].
      subst c'.
      assert (lines tc !! Z.to_nat i = Some line) as Hl.
      { symmetry. transitivity ((line :: rest) !! 0%nat); [done|].
        rewrite Hrest. f_equal. lia. }
      unfold textAt in Ht. rewrite Hl in Ht.
      unfold blankAt in Hb.
      destruct (lines tc !! Z.to_nat (i + 1)) as [l'|] eqn:El'; [|done].
      assert (i + 1 < len (lines tc)) as Hlen.
      { apply lookup_lt_Some in El'. unfold len. lia. }
      rewrite bool_decide_true by done. rewrite Ht. cbn [default from_option id].
      rewrite Hb.
      assert ((i <? numLines tc - 2) = true) as -> by lia.
      assert ((i + 1 <? len (lines tc)) = true) as -> by lia.
      cbn [andb]. set_solver.
Qed.

(** C8 (amended): after gap closing, a shown line that itself holds text,
    that lies before [numLines - 2] and that is followed by a blank line
    has that blank line shown.  (The source skips shown lines that are
    blank themselves.) *)
Theorem blank_after_text_shown (o : IterOrder) (tc : TreeContext) (i : Z) :
  0 ≤ i →
  i ∈ showLines (closeSmallGaps o tc) →
  textAt tc i = true →
  i < numLines tc - 2 →
  blankAt tc (i + 1) = true →
  i + 1 ∈ showLines (closeSmallGaps o tc).
Proof.
  rewrite closeSmallGaps_eq. cbn [showLines set_showLines].
  intros Hi Hin Ht Hn Hb.
  destruct (pickBlanks_spec tc (lines tc) 0
              (fillGaps (mapKeysSorted o (showLines tc)) (showLines tc)))
    as [_ H]; [done|done|].
  by apply H.
Qed.

Lemma blank_after_text_shown_witness :
  0 + 1 ∈ showLines (closeSmallGaps ascending (seedPass ascending blanksContext)).
Proof.
  apply (blank_after_text_shown ascending (seedPass ascending blanksContext) 0).
  - lia.
  - apply (bool_decide_unpack _). vm_compute. exact I.
  - reflexivity.
  - vm_compute. reflexivity.
  - reflexivity.
Defined.

(** C8 as stated fails: line 1 is shown (it is the blank line picked up
    after line 0) and line 2 is blank, yet line 2 stays hidden. *)
Lemma blankFollowsShown_fails :
  AddContext ascending blanksContext = Ok blanksResult
  ∧ ¬ blankFollowsShown blanksResult.
Proof.
  split; [vm_compute; reflexivity|].
  intros H. specialize (H 1).
  assert (1 + 1 ∈ showLines blanksResult) as Hbad.
  { apply H.
    - lia.
    - apply (bool_decide_unpack _). vm_compute. exact I.
    - vm_compute. reflexivity.
    - reflexivity. }
  apply (bool_decide_pack _) in Hbad. vm_compute in Hbad. exact Hbad.
Qed.

(** ** Descendant preview *)

Lemma computedMax_bounds size : 5 ≤ computedMax size ≤ 25.
Proof. unfold computedMax. zbool. Qed.

Lemma expandAll_snoc o pre c tc tcm tc' :
  expandAll o pre tc = Ok tcm →
  addParentScopes o (fuelOf tcm) (startLineOf c) tcm = Ok tc' →
  expandAll o (pre ++ [c]) tc = Ok tc'.
Proof.
  intros H1 H2. unfold expandAll in *. rewrite foldM_app, H1. cbn [bind foldM].
  by rewrite H2.
Qed.

(** The loop stops expanding once more than [limit] lines are shown: it
    ends within the limit, or the last expansion it made started within
    the limit. *)
Lemma childLoop_prefix o limit cs : ∀ tc tc',
  childLoop o limit cs tc = Ok tc' →
  Z.of_nat (size (showLines tc)) ≤ limit →
  Z.of_nat (size (showLines tc')) ≤ limit
  ∨ ∃ pre c tcm,
      (pre ++ [c]) `prefix_of` cs
      ∧ expandAll o pre tc = Ok tcm
      ∧ Z.of_nat (size (showLines tcm)) ≤ limit
      ∧ addParentScopes o (fuelOf tcm) (startLineOf c) tcm = Ok tc'.
Proof.
  induction cs as [|c cs IH]; intros tc tc'; cbn [childLoop].
  - intros [= <-] Hle. by left.
  - intros H Hle.
    destruct (Z.ltb_spec limit (Z.of_nat (size (showLines tc)))) as [Hlt|_]; [lia|].
    destruct (addParentScopes o (fuelOf tc) (startLineOf c) tc) as [tc1|] eqn:E1; [|done].
    cbn [bind] in H.
    destruct (decide (Z.of_nat (size (showLines tc1)) ≤ limit)) as [Hle1|Hgt1].
    + destruct (IH tc1 tc' H Hle1) as [Hok|(pre & c' & tcm & Hpre & Hexp & Hm & Hlast)];
        [by left|right].
      exists (c :: pre), c', tcm. split; [by apply prefix_cons|].
      split; [|done]. unfold expandAll in *. cbn [foldM]. by rewrite E1.
    + right. exists [], c, tc.
      assert (tc' = tc1) as ->.
      { destruct cs; cbn [childLoop] in H; [congruence|].
        destruct (Z.ltb_spec limit (Z.of_nat (size (showLines tc1)))); [congruence|lia]. }
      split; [apply prefix_cons, prefix_nil|]. done.
Qed.

(** C2 (amended): on a scope of span [S >= 5] the preview tests its
    budget [clamp(round(S*0.10), 5, 25)] before each ancestor expansion
    and not after it: the call returns with at most that many lines
    added, or the expansion that went beyond the budget was its last one
    and began with at most that many lines added. *)
Theorem child_budget_tested_before_expansion (o : IterOrder) (tc : TreeContext) (i : Z) :
  wfIndex tc →
  0 ≤ i < len (nodes tc) →
  default [] (nodes tc !! Z.to_nat i) ≠ [] →
  5 ≤ getLastLineOfScope tc i - i →
  ∃ tc', addChildContext o i tc = Ok tc'
    ∧ (added tc tc' ≤ computedMax (getLastLineOfScope tc i - i)
       ∨ ∃ pre c tcm,
           (pre ++ [c]) `prefix_of` sortedDescendants tc i
           ∧ expandAll o pre tc = Ok tcm
           ∧ added tc tcm ≤ computedMax (getLastLineOfScope tc i - i)
           ∧ addParentScopes o (fuelOf tcm) (startLineOf c) tcm = Ok tc').
Proof.
  intros Hwf Hi Hne HS.
  destruct (addChildContext_total o i tc Hwf) as [tc' H]. exists tc'. split; [done|].
  revert H. unfold addChildContext.
  assert ((i <? 0) || (len (nodes tc) <=? i) = false) as -> by zbool.
  destruct (default [] (nodes tc !! Z.to_nat i)) as [|n ns] eqn:En; [done|].
  assert ((len (n :: ns) =? 0) = false) as ->
    by (apply Z.eqb_neq; unfold len; cbn [length]; lia).
  assert ((getLastLineOfScope tc i - i <? 0) = false) as -> by (apply Z.ltb_ge; lia).
  assert ((getLastLineOfScope tc i - i <? 5) = false) as -> by (apply Z.ltb_ge; lia).
  intros H. apply childLoop_prefix in H; [|pose proof (computedMax_bounds
    (getLastLineOfScope tc i - i)); lia].
  unfold added, sortedDescendants. rewrite En.
  destruct H as [H|(pre & c & tcm & H1 & H2 & H3 & H4)]; [left; lia|right].
  exists pre, c, tcm. repeat split; [done|done|lia|done].
Qed.

Lemma child_budget_tested_before_expansion_witness :
  ∃ tc', addChildContext ascending 1 budgetContext = Ok tc'
    ∧ (added budgetContext tc' ≤ computedMax (getLastLineOfScope budgetContext 1 - 1)
       ∨ ∃ pre c tcm,
           (pre ++ [c]) `prefix_of` sortedDescendants budgetContext 1
           ∧ expandAll ascending pre budgetContext = Ok tcm
           ∧ added budgetContext tcm ≤ computedMax (getLastLineOfScope budgetContext 1 - 1)
           ∧ addParentScopes ascending (fuelOf tcm) (startLineOf c) tcm = Ok tc').
Proof.
  apply (child_budget_tested_before_expansion ascending budgetContext 1).
  - apply (bool_decide_unpack _). vm_compute. exact I.
  - vm_compute. split; [discriminate|reflexivity].
  - vm_compute. discriminate.
  - vm_compute. discriminate.
Defined.

(** C2 as stated fails: with a header limit of 10 lines the preview of
    the declaration on rows 1..11 (span 10, budget 5) reveals its header,
    lines 1..10, in one expansion: nine lines beyond the one shown. *)
Lemma withinBudget_fails : ¬ withinBudget ascending 1 budgetContext.
Proof.
  intros H. specialize (H budgetResult ltac:(vm_compute; reflexivity)).
  assert (added budgetContext budgetResult = 9) as E1 by (vm_compute; reflexivity).
  assert (computedMax (getLastLineOfScope budgetContext 1 - 1) = 5) as E2
    by (vm_compute; reflexivity).
  rewrite E1, E2 in H. lia.
Qed.

(** ** Calling [AddContext] again *)

Lemma addParentScopes_done o fuel i tc :
  ¬ (0 ≤ i < len (scopes tc)) ∨ i ∈ doneParentScopes tc →
  addParentScopes o fuel i tc = Ok tc.
Proof.
  intros H. rewrite addParentScopes_unfold.
  destruct (_ || _) eqn:E; [done|].
  destruct H as [H|H]; [exfalso; apply H; zbool_hyp E|].
  by rewrite bool_decide_true.
Qed.

Lemma foldM_fixed {A B} (f : A → B → res A) l a :
  (∀ b, b ∈ l → f a b = Ok a) → foldM f l a = Ok a.
Proof.
  induction l as [|b l IH]; intros H; [done|].
  cbn [foldM]. rewrite (H b) by (by left). cbn [bind]. apply IH.
  intros b' Hb'. apply H. by right.
Qed.

Lemma parentLoop_grows o l : ∀ tc tc',
  foldM (fun tc i => addParentScopes o (fuelOf tc) i tc) l tc = Ok tc' →
  grows tc tc'
  ∧ ∀ i, i ∈ l → 0 ≤ i < len (scopes tc) → i ∈ doneParentScopes tc'.
Proof.
  induction l as [|r l IH]; intros tc tc'; cbn [foldM].
  - intros [= <-]. split; [apply grows_refl|]. intros i Hi. by apply elem_of_nil in Hi.
  - destruct (addParentScopes o (fuelOf tc) r tc) as [tc1|] eqn:E1; [|done].
    cbn [bind]. intros H. apply IH in H as [Hg2 Hin2].
    apply addParentScopes_grows in E1 as [Hg1 Hin1].
    split; [by eapply grows_trans|].
    assert (scopes tc1 = scopes tc) as Esc.
    { by destruct Hg1 as [(S & D & -> & _ & _) _]. }
    intros i [->|Hi]%elem_of_cons Hr.
    + destruct Hg2 as [He _]. apply extends_doneParentScopes in He. set_solver.
    + apply Hin2; [done|]. by rewrite Esc.
Qed.

Lemma show_known x tc : x ∈ showLines tc → show x tc = tc.
Proof.
  intros Hx. unfold show.
  assert ({[x]} ∪ showLines tc = showLines tc) as -> by set_solver.
  apply set_showLines_id.
Qed.

(** C3 (amended): with no padding and no descendant preview, the passes
    of a second consecutive [AddContext] find every line and every
    ancestor chain already in place (the memo of expanded lines makes the
    ancestor passes return at once), so the second call changes the lines
    to show by one more gap-closing pass and nothing else; it never drops
    a line. *)
Theorem second_AddContext_closes_gaps_only (o o' : IterOrder) (tc : TreeContext) :
  wfIndex tc →
  loiPad tc ≤ 0 →
  childContext tc = false →
  ∃ tc1 tc2,
    AddContext o tc = Ok tc1
    ∧ AddContext o' tc1 = Ok tc2
    ∧ tc2 = (if decide (linesOfInterest tc = ∅) then tc1 else closeSmallGaps o' tc1)
    ∧ showLines tc1 ⊆ showLines tc2.
Proof.
  intros Hwf Hpad Hchild.
  destruct (AddContext_total o tc Hwf) as [tc1 H1].
  exists tc1.
  destruct (decide (linesOfInterest tc = ∅)) as [Hempty|Hne].
  { assert (∀ o0, AddContext o0 tc = Ok tc) as Hnoop.
    { intros o0. unfold AddContext. by rewrite Hempty, size_empty. }
    assert (tc1 = tc) as -> by (rewrite Hnoop in H1; by injection H1).
    exists tc. by rewrite !Hnoop. }
  assert (Z.of_nat (size (linesOfInterest tc)) ≠ 0) as Hnz.
  { intros Hz. apply Hne, leibniz_equiv, size_empty_inv. lia. }
  exists (closeSmallGaps o' tc1). split; [done|].
  split; [|split; [done|apply extends_showLines, closeSmallGaps_extends]].
  pose proof (AddContext_seeded _ _ _ H1) as Hseed.
  destruct (AddContext_stages _ _ _ H1 Hnz) as (t1 & t2 & t3 & E1 & E2 & E3 & Etc1).
  pose proof (lastLinePass_extends _ _ _ E1) as He1.
  pose proof (parentPass_extends _ _ _ E2) as He2.
  pose proof (childPass_extends _ _ _ E3) as He3.
  assert (extends tc (padPass o (seedPass o tc))) as He0.
  { eapply extends_trans; [apply seedPass_extends|apply padPass_extends]. }
  assert (extends t3 tc1) as He4.
  { rewrite Etc1. eapply extends_trans; [apply marginPass_extends|apply closeSmallGaps_extends]. }
  (* what the first call has left in place *)
  assert (lastLine tc = true →
          numLines tc - 2 ∈ showLines tc1
          ∧ (0 ≤ numLines tc - 2 < len (scopes tc) → numLines tc - 2 ∈ doneParentScopes tc1))
    as Hlast.
  { intros Hl. revert E1. unfold lastLinePass.
    assert (lastLine (padPass o (seedPass o tc)) = true) as ->.
    { by destruct He0 as (S & D & -> & _ & _). }
    assert (numLines (padPass o (seedPass o tc)) = numLines tc) as ->.
    { by destruct He0 as (S & D & -> & _ & _). }
    intros E1. apply addParentScopes_grows in E1 as [[He _] Hin].
    assert (extends (show (numLines tc - 2) (padPass o (seedPass o tc))) tc1) as He'.
    { eapply extends_trans; [exact He|].
      eapply extends_trans; [exact He2|].
      eapply extends_trans; [exact He3|exact He4]. }
    split.
    - apply extends_showLines in He'. cbn in He'. set_solver.
    - intros Hr. apply extends_doneParentScopes in He4, He3, He2.
      assert (numLines tc - 2 ∈ doneParentScopes t1); [|set_solver].
      apply Hin. destruct He0 as (S & D & -> & _ & _). done. }
  assert (parentContext tc = true →
          ∀ i, i ∈ linesOfInterest tc → 0 ≤ i < len (scopes tc) →
               i ∈ doneParentScopes tc1) as Hparents.
  { intros Hp i Hi Hr. revert E2. unfold parentPass.
    assert (extends tc t1) as He01 by (by eapply extends_trans).
    assert (parentContext t1 = true) as ->.
    { by destruct He01 as (S & D & -> & _ & _). }
    intros E2. apply parentLoop_grows in E2 as [_ Hin].
    apply extends_doneParentScopes in He4, He3.
    assert (i ∈ doneParentScopes t2); [|set_solver].
    apply Hin.
    - apply rangeKeys_elem. by destruct He01 as (S & D & -> & _ & _).
    - by destruct He01 as (S & D & -> & _ & _). }
  assert (0 < margin tc →
          list_to_set (seqZ 0 (Z.min (margin tc) (numLines tc) - 0)) ⊆ showLines tc1)
    as Hmargin.
  { intros Hm.
    assert (extends tc t3) as He03.
    { eapply extends_trans; [exact He0|].
      eapply extends_trans; [exact He1|].
      eapply extends_trans; [exact He2|exact He3]. }
    assert (extends (marginPass t3) tc1) as He'.
    { rewrite Etc1. apply closeSmallGaps_extends. }
    apply extends_showLines in He'. etrans; [|exact He'].
    unfold marginPass.
    assert ((0 <? margin t3) = true) as ->.
    { destruct He03 as (S & D & -> & _ & _). cbn. lia. }
    rewrite showRange_eq. destruct He03 as (S & D & -> & _ & _). cbn. set_solver. }
  (* the second call *)
  assert (extends tc tc1) as He by (by eapply AddContext_extends).
  clear E1 E2 E3 He0 He1 He2 He3 He4 Etc1 H1 t1 t2 t3.
  destruct He as (S & D & -> & HS & HD). cbn in *.
  set (tc1 := set_showLines S (set_doneParentScopes D tc)).
  assert (seedPass o' tc1 = tc1) as Eseed.
  { rewrite seedPass_eq. subst tc1. cbn.
    assert (linesOfInterest tc ∪ S = S) as -> by set_solver. by destruct tc. }
  assert (padPass o' tc1 = tc1) as Epad.
  { unfold padPass. subst tc1. cbn. by assert ((0 <? loiPad tc) = false) as -> by lia. }
  assert (lastLinePass o' tc1 = Ok tc1) as Elast.
  { unfold lastLinePass. subst tc1. cbn [lastLine set_showLines set_doneParentScopes numLines].
    destruct (lastLine tc) eqn:El; [|done].
    destruct (Hlast eq_refl) as [Hin Hdone].
    rewrite show_known by done.
    apply addParentScopes_done. cbn.
    destruct (decide (0 ≤ numLines tc - 2 < len (scopes tc))); [right; auto|by left]. }
  assert (parentPass o' tc1 = Ok tc1) as Eparent.
  { unfold parentPass. subst tc1. cbn [parentContext set_showLines set_doneParentScopes].
    destruct (parentContext tc) eqn:Ep; [|done].
    apply foldM_fixed. intros i Hi. apply rangeKeys_elem in Hi. cbn in Hi.
    apply addParentScopes_done. cbn.
    destruct (decide (0 ≤ i < len (scopes tc))); [right; by apply Hparents|by left]. }
  assert (childPass o' tc1 = Ok tc1) as Echild.
  { unfold childPass. subst tc1. cbn. by rewrite Hchild. }
  assert (marginPass tc1 = tc1) as Emargin.
  { unfold marginPass. subst tc1. cbn [margin set_showLines set_doneParentScopes numLines].
    destruct (Z.ltb_spec 0 (margin tc)) as [Hm|_]; [|done].
    rewrite showRange_eq. cbn.
    assert (list_to_set (seqZ 0 (Z.min (margin tc) (numLines tc) - 0)) ∪ S = S) as ->
      by (specialize (Hmargin Hm); set_solver).
    by destruct tc. }
  unfold AddContext.
  assert ((Z.of_nat (size (linesOfInterest tc1)) =? 0) = false) as ->.
  { subst tc1. cbn. lia. }
  rewrite Eseed, Epad, Elast. cbn [bind]. rewrite Eparent. cbn [bind].
  rewrite Echild. cbn [bind]. by rewrite Emargin.
Qed.

Lemma second_AddContext_closes_gaps_only_witness :
  AddContext ascending gapsContext = Ok gapsOnce
  ∧ AddContext descending gapsOnce = Ok (closeSmallGaps descending gapsOnce)
  ∧ showLines gapsOnce ⊆ showLines (closeSmallGaps descending gapsOnce)
  ∧ 8 ∈ doneParentScopes gapsOnce
  ∧ 2 ∉ showLines gapsOnce
  ∧ 2 ∈ showLines (closeSmallGaps descending gapsOnce).
Proof.
  assert (wfIndex gapsContext) as Hwf
    by (apply (bool_decide_unpack _); vm_compute; exact I).
  assert (loiPad gapsContext ≤ 0) as Hpad by (vm_compute; discriminate).
  assert (childContext gapsContext = false) as Hchild by reflexivity.
  assert (AddContext ascending gapsContext = Ok gapsOnce) as E
    by (vm_compute; reflexivity).
  assert (3 ∈ linesOfInterest gapsContext) as H3
    by (apply (bool_decide_unpack _); vm_compute; exact I).
  assert (8 ∈ doneParentScopes gapsOnce) as H8
    by (apply (bool_decide_unpack _); vm_compute; exact I).
  assert (2 ∉ showLines gapsOnce) as H2
    by (intros H; apply (bool_decide_pack _) in H; vm_compute in H; exact H).
  assert (2 ∈ showLines (closeSmallGaps descending gapsOnce)) as H2'
    by (apply (bool_decide_unpack _); vm_compute; exact I).
  revert Hwf Hpad Hchild E H3 H8 H2 H2'.
  generalize gapsOnce. generalize gapsContext.
  intros g g1 Hwf Hpad Hchild E H3 H8 H2 H2'.
  destruct (second_AddContext_closes_gaps_only ascending descending g Hwf Hpad Hchild)
    as (tc1 & tc2 & H1 & Hsecond & Heq & Hsub).
  assert (tc1 = g1) as -> by congruence.
  destruct (decide (linesOfInterest g = ∅)) as [Hd|_].
  { rewrite Hd in H3. by apply elem_of_empty in H3. }
  subst tc2. done.
Defined.

(** C3 as stated fails: with a padding of one line around line 10 the
    first call shows lines 9..11 and the second, padding every shown line
    again, shows lines 8..12. *)
Lemma idempotentAddContext_fails : ¬ idempotentAddContext ascending paddedContext.
Proof.
  intros H.
  specialize (H paddedOnce paddedTwice ltac:(vm_compute; reflexivity)
                ltac:(vm_compute; reflexivity)).
  assert (8 ∈ showLines paddedTwice) as H8
    by (apply (bool_decide_unpack _); vm_compute; exact I).
  rewrite H in H8. apply (bool_decide_pack _) in H8. vm_compute in H8. exact H8.
Qed.

(** ** The order in which maps are walked *)

Lemma parentLoop_minimal o (tc0 : TreeContext) (S D : gset Z) l :
  (∀ j, j ∈ D → j ∉ doneParentScopes tc0 → 0 ≤ j < len (scopes tc0) →
        closedAt tc0 S D j) →
  (∀ i, i ∈ l → 0 ≤ i < len (scopes tc0) → i ∈ D) →
  ∀ tc tc',
    foldM (fun tc i => addParentScopes o (fuelOf tc) i tc) l tc = Ok tc' →
    extends tc0 tc → showLines tc ⊆ S → doneParentScopes tc ⊆ D →
    showLines tc' ⊆ S ∧ doneParentScopes tc' ⊆ D.
Proof.
  intros Hclosed. induction l as [|r l IH]; intros Hroots tc tc'; cbn [foldM].
  - by intros [= <-].
  - destruct (addParentScopes o (fuelOf tc) r tc) as [tc1|] eqn:E1; [|done].
    cbn [bind]. intros H He HS HD.
    assert (scopes tc = scopes tc0) as Esc by (by destruct He as (S0 & D0 & -> & _ & _)).
    destruct (addParentScopes_minimal o (fuelOf tc) tc0 S D Hclosed r tc tc1 E1 He HS HD)
      as [HS1 HD1].
    { rewrite Esc. apply Hroots. by left. }
    apply (IH ltac:(intros i Hi; apply Hroots; by right) tc1 tc' H); [|done|done].
    eapply extends_trans; [exact He|by eapply addParentScopes_extends].
Qed.

(** Expanding the same lines from the same context gives the same
    context, in whatever order the lines and their scopes are taken. *)
Lemma parentLoop_order_irrelevant o1 o2 l1 l2 tc tc1 tc2 :
  l1 ≡ₚ l2 →
  foldM (fun tc i => addParentScopes o1 (fuelOf tc) i tc) l1 tc = Ok tc1 →
  foldM (fun tc i => addParentScopes o2 (fuelOf tc) i tc) l2 tc = Ok tc2 →
  tc1 = tc2.
Proof.
  intros Hp H1 H2.
  pose proof (parentLoop_grows _ _ _ _ H1) as [[He1 Hc1] Hr1].
  pose proof (parentLoop_grows _ _ _ _ H2) as [[He2 Hc2] Hr2].
  destruct (parentLoop_minimal o1 tc (showLines tc2) (doneParentScopes tc2) l1) with
    (tc := tc) (tc' := tc1) as [HS12 HD12]; try done.
  { intros j Hj Hn _. by apply Hc2. }
  { intros i Hi. apply Hr2. by rewrite <- Hp. }
  { apply extends_refl. }
  { by apply extends_showLines. }
  { by apply extends_doneParentScopes. }
  destruct (parentLoop_minimal o2 tc (showLines tc1) (doneParentScopes tc1) l2) with
    (tc := tc) (tc' := tc2) as [HS21 HD21]; try done.
  { intros j Hj Hn _. by apply Hc1. }
  { intros i Hi. apply Hr1. by rewrite Hp. }
  { apply extends_refl. }
  { by apply extends_showLines. }
  { by apply extends_doneParentScopes. }
  destruct He1 as (S1 & D1 & -> & _ & _). destruct He2 as (S2 & D2 & -> & _ & _).
  cbn in *.
  assert (S1 = S2) as -> by set_solver.
  assert (D1 = D2) as -> by set_solver.
  done.
Qed.

Lemma foldM_singleton {A B} (f : A → B → res A) b a : foldM f [b] a = f a b.
Proof. cbn. by destruct (f a b). Qed.

Lemma addParentScopes_order_irrelevant o1 o2 i tc tc1 tc2 :
  addParentScopes o1 (fuelOf tc) i tc = Ok tc1 →
  addParentScopes o2 (fuelOf tc) i tc = Ok tc2 →
  tc1 = tc2.
Proof.
  intros H1 H2.
  apply (parentLoop_order_irrelevant o1 o2 [i] [i] tc); [done|..];
    by rewrite foldM_singleton.
Qed.

Lemma seedPass_order_irrelevant o1 o2 tc : seedPass o1 tc = seedPass o2 tc.
Proof. by rewrite !seedPass_eq. Qed.

Lemma padPass_order_irrelevant o1 o2 tc : padPass o1 tc = padPass o2 tc.
Proof. unfold padPass. destruct (0 <? loiPad tc); [|done]. by rewrite !padLines_eq. Qed.

Lemma lastLinePass_order_irrelevant o1 o2 tc tc1 tc2 :
  lastLinePass o1 tc = Ok tc1 → lastLinePass o2 tc = Ok tc2 → tc1 = tc2.
Proof.
  unfold lastLinePass. destruct (lastLine tc); [|congruence].
  apply addParentScopes_order_irrelevant.
Qed.

Lemma parentPass_order_irrelevant o1 o2 tc tc1 tc2 :
  parentPass o1 tc = Ok tc1 → parentPass o2 tc = Ok tc2 → tc1 = tc2.
Proof.
  unfold parentPass. destruct (parentContext tc); [|congruence].
  apply parentLoop_order_irrelevant.
  unfold rangeKeys. by rewrite !order_perm.
Qed.

Lemma childLoop_order_irrelevant o1 o2 limit children : ∀ tc tc1 tc2,
  childLoop o1 limit children tc = Ok tc1 →
  childLoop o2 limit children tc = Ok tc2 →
  tc1 = tc2.
Proof.
  induction children as [|child rest IH]; intros tc tc1 tc2; cbn [childLoop].
  - congruence.
  - destruct (limit <? Z.of_nat (size (showLines tc))); [congruence|].
    destruct (addParentScopes o1 (fuelOf tc) (startLineOf child) tc) as [a|e] eqn:E1;
      cbn [bind]; [|discriminate].
    destruct (addParentScopes o2 (fuelOf tc) (startLineOf child) tc) as [b|e] eqn:E2;
      cbn [bind]; [|discriminate].
    rewrite (addParentScopes_order_irrelevant _ _ _ _ _ _ E1 E2). apply IH.
Qed.

Lemma addChildContext_order_irrelevant o1 o2 i tc tc1 tc2 :
  addChildContext o1 i tc = Ok tc1 →
  addChildContext o2 i tc = Ok tc2 →
  tc1 = tc2.
Proof.
  unfold addChildContext.
  destruct ((i <? 0) || (len (nodes tc) <=? i)); [congruence|].
  destruct (len (default [] (nodes tc !! Z.to_nat i)) =? 0); [congruence|].
  destruct (getLastLineOfScope tc i - i <? 0); [congruence|].
  destruct (getLastLineOfScope tc i - i <? 5); [congruence|].
  apply childLoop_order_irrelevant.
Qed.

(** The preview loop depends on the iteration order only through the
    order in which it is handed the lines of interest. *)
Lemma childFold_order_irrelevant o1 o2 l : ∀ tc tc1 tc2,
  foldM (fun tc i => addChildContext o1 i tc) l tc = Ok tc1 →
  foldM (fun tc i => addChildContext o2 i tc) l tc = Ok tc2 →
  tc1 = tc2.
Proof.
  induction l as [|i l IH]; intros tc tc1 tc2; cbn [foldM].
  - congruence.
  - destruct (addChildContext o1 i tc) as [a|e] eqn:E1; cbn [bind]; [|discriminate].
    destruct (addChildContext o2 i tc) as [b|e] eqn:E2; cbn [bind]; [|discriminate].
    rewrite (addChildContext_order_irrelevant _ _ _ _ _ _ E1 E2). apply IH.
Qed.

Lemma childPass_order_irrelevant o1 o2 tc tc1 tc2 :
  (childContext tc = true →
   rangeKeys o1 SiteChildren (linesOfInterest tc)
   = rangeKeys o2 SiteChildren (linesOfInterest tc)) →
  childPass o1 tc = Ok tc1 → childPass o2 tc = Ok tc2 → tc1 = tc2.
Proof.
  unfold childPass. intros Hsame.
  destruct (childContext tc); [|congruence].
  rewrite (Hsame eq_refl). apply childFold_order_irrelevant.
Qed.

(** A map with at most one key is walked in one order only. *)
Lemma rangeKeys_small o1 o2 site (m : gset Z) :
  (size m ≤ 1)%nat → rangeKeys o1 site m = rangeKeys o2 site m.
Proof.
  unfold rangeKeys, size, set_size. cbn.
  pose proof (order_perm o1 site (elements m)) as H1.
  pose proof (order_perm o2 site (elements m)) as H2.
  destruct (elements m) as [|x [|y l]]; cbn [length]; intros Hle.
  - apply Permutation_nil_r in H1, H2. congruence.
  - apply Permutation_singleton_r in H1, H2. congruence.
  - lia.
Qed.

Lemma AddContext_order_irrelevant o1 o2 tc tc1 tc2 :
  (childContext tc = true →
   rangeKeys o1 SiteChildren (linesOfInterest tc)
   = rangeKeys o2 SiteChildren (linesOfInterest tc)) →
  AddContext o1 tc = Ok tc1 → AddContext o2 tc = Ok tc2 → tc1 = tc2.
Proof.
  intros Hsame H1 H2.
  destruct (decide (Z.of_nat (size (linesOfInterest tc)) = 0)) as [Hz|Hnz].
  { unfold AddContext in H1, H2. rewrite Hz in H1, H2. cbn in H1, H2. congruence. }
  destruct (AddContext_stages _ _ _ H1 Hnz) as (a1 & a2 & a3 & A1 & A2 & A3 & ->).
  destruct (AddContext_stages _ _ _ H2 Hnz) as (b1 & b2 & b3 & B1 & B2 & B3 & ->).
  rewrite (seedPass_order_irrelevant o2 o1), (padPass_order_irrelevant o2 o1) in B1.
  assert (a1 = b1) as <- by (by eapply lastLinePass_order_irrelevant).
  assert (a2 = b2) as <- by (by eapply parentPass_order_irrelevant).
  assert (extends tc a2) as (S & D & -> & _ & _).
  { eapply extends_trans; [apply seedPass_extends|].
    eapply extends_trans; [apply padPass_extends|].
    eapply extends_trans; [by eapply lastLinePass_extends|by eapply parentPass_extends]. }
  assert (a3 = b3) as <-.
  { eapply childPass_order_irrelevant; [|exact A3|exact B3]. exact Hsame. }
  apply closeSmallGaps_order_irrelevant.
Qed.




(** * Further properties of the code *)

(** ** Sorting helpers *)

Lemma StronglySorted_le_NoDup_lt (l : list Z) :
  StronglySorted Z.le l → NoDup l → StronglySorted Z.lt l.
Proof.
  induction 1 as [|x l Hs IH Hall]; intros Hnd; [constructor|].
  apply NoDup_cons in Hnd as [Hx Hnd]. constructor; [by apply IH|].
  rewrite Forall_forall in Hall |- *. intros y Hy.
  specialize (Hall y Hy). assert (x ≠ y) by (intros ->; done). lia.
Qed.

Lemma mapKeysSorted_strict o (m : gset Z) : StronglySorted Z.lt (mapKeysSorted o m).
Proof.
  destruct (mapKeysSorted_sorted o m) as [Hs Hp].
  apply StronglySorted_le_NoDup_lt; [done|].
  rewrite Hp. apply NoDup_elements.
Qed.

(** X1: [mapKeysSorted] returns each key of the map once, in strictly
    ascending order, whatever order the runtime walks the map in. *)
Theorem mapKeysSorted_ascending (o : IterOrder) (m : gset Z) :
  StronglySorted Z.lt (mapKeysSorted o m)
  ∧ (∀ x, x ∈ mapKeysSorted o m ↔ x ∈ m)
  ∧ length (mapKeysSorted o m) = size m.
Proof.
  split; [apply mapKeysSorted_strict|]. split; [apply mapKeysSorted_elem|].
  destruct (mapKeysSorted_sorted o m) as [_ Hp]. by rewrite Hp.
Qed.

Lemma sift_largest {A} (key : A → Z) rest : ∀ x,
  key x ≤ key (sift (fun j i => key i <? key j) x rest).1
  ∧ Forall (fun y => key y ≤ key (sift (fun j i => key i <? key j) x rest).1)
           (sift (fun j i => key i <? key j) x rest).2.
Proof.
  induction rest as [|y r IH]; intros x; cbn [sift fst snd]; [split; [lia|constructor]|].
  destruct (Z.ltb_spec (key x) (key y)).
  - specialize (IH y). destruct (sift _ y r) as [m r']. cbn in *.
    destruct IH as [Hm Hr]. split; [lia|]. constructor; [lia|done].
  - specialize (IH x). destruct (sift _ x r) as [m r']. cbn in *.
    destruct IH as [Hm Hr]. split; [lia|]. constructor; [lia|done].
Qed.

Lemma exchangeSortAux_descending {A} (key : A → Z) n : ∀ out,
  length out = n →
  StronglySorted (fun a b => key b ≤ key a)
                 (exchangeSortAux (fun j i => key i <? key j) n out).
Proof.
  induction n as [|n IH]; intros out Hlen.
  - destruct out; [constructor|done].
  - destruct out as [|x rest]; [done|]. cbn [exchangeSortAux].
    pose proof (sift_largest key rest x) as [_ Hall].
    pose proof (sift_length (fun j i => key i <? key j) rest x) as Hl.
    destruct (sift _ x rest) as [m r']. cbn in *.
    constructor.
    + apply IH. lia.
    + by rewrite exchangeSortAux_perm.
Qed.

(** X2: [sortNodesBySize] keeps every node and orders them by line span,
    largest first. *)
Theorem sortNodesBySize_descending (ns : list Node) :
  sortNodesBySize ns ≡ₚ ns
  ∧ StronglySorted (fun a b => sizeOf b ≤ sizeOf a) (sortNodesBySize ns).
Proof.
  split; [apply exchangeSort_perm|].
  unfold sortNodesBySize, exchangeSort. by apply (exchangeSortAux_descending sizeOf).
Qed.

(** ** The structural index *)

Lemma nodes_visit tc n :
  nodes (visit tc n) = alter (fun ns => ns ++ [n]) (startRow n) (nodes tc).
Proof.
  unfold visit, startLineOf. rewrite Nat2Z.id. repeat case_match; reflexivity.
Qed.

Lemma nodes_foldl_visit l : ∀ tc (i : nat) ns0,
  nodes tc !! i = Some ns0 →
  nodes (foldl visit tc l) !! i = Some (ns0 ++ filter (fun n => startRow n = i) l).
Proof.
  induction l as [|n l IH]; intros tc i ns0 H0; cbn [foldl].
  - by rewrite filter_nil, app_nil_r.
  - rewrite filter_cons. destruct (decide (startRow n = i)) as [<-|Hne].
    + rewrite (IH _ _ (ns0 ++ [n])).
      * by rewrite <- app_assoc.
      * rewrite nodes_visit, list_lookup_alter_eq, H0. done.
    + apply IH. by rewrite nodes_visit, list_lookup_alter_ne.
Qed.

Lemma alter_range_lookup {A} (f : A → A) (k : nat) : ∀ (a : Z) (sc : list A) (i : nat),
  0 ≤ a →
  foldl (fun sc j => alter f (Z.to_nat j) sc) sc (seqZ a (Z.of_nat k)) !! i
  = (if bool_decide (a ≤ Z.of_nat i < a + Z.of_nat k) then f else id) <$> sc !! i.
Proof.
  induction k as [|k IH]; intros a sc i Ha.
  - cbn [foldl seqZ]. rewrite seqZ_nil by lia. cbn [foldl].
    rewrite bool_decide_false by lia. by destruct (sc !! i).
  - rewrite seqZ_cons by lia. cbn [foldl].
    replace (Z.pred (Z.of_nat (S k))) with (Z.of_nat k) by lia.
    rewrite IH by lia.
    destruct (decide (Z.of_nat i = a)) as [Hi|Hi].
    + replace (Z.to_nat a) with i by lia. rewrite list_lookup_alter_eq.
      rewrite bool_decide_false by lia. rewrite bool_decide_true by lia.
      destruct (sc !! i); cbn; done.
    + rewrite list_lookup_alter_ne by lia.
      destruct (sc !! i); [|done]. cbn.
      destruct (decide (Z.succ a ≤ Z.of_nat i < Z.succ a + Z.of_nat k)).
      * rewrite !bool_decide_true by lia. done.
      * rewrite !bool_decide_false by lia. done.
Qed.

Lemma markScopes_lookup (a b : Z) (sc : list (gset Z)) (i : nat) :
  0 ≤ a →
  markScopes a b sc !! i
  = (fun S => if bool_decide (a ≤ Z.of_nat i ≤ b) then {[a]} ∪ S else S) <$> sc !! i.
Proof.
  intros Ha. unfold markScopes.
  destruct (sc !! i) as [S|] eqn:E.
  - assert (Z.of_nat i < len sc) as Hi by (apply lookup_lt_Some in E; unfold len; lia).
    destruct (decide (a ≤ Z.min (b + 1) (len sc))) as [Hle|Hgt].
    + replace (Z.min (b + 1) (len sc) - a)
        with (Z.of_nat (Z.to_nat (Z.min (b + 1) (len sc) - a))) by lia.
      rewrite alter_range_lookup by done. rewrite E. cbn.
      destruct (decide (a ≤ Z.of_nat i ≤ b)).
      * rewrite !bool_decide_true by lia. done.
      * rewrite !bool_decide_false by lia. done.
    + rewrite seqZ_nil by lia. cbn [foldl]. rewrite E. cbn.
      by rewrite bool_decide_false by lia.
  - enough (length (foldl (fun sc j => alter (fun S => {[a]} ∪ S) (Z.to_nat j) sc) sc
                      (seqZ a (Z.min (b + 1) (len sc) - a))) = length sc) as Hl.
    { cbn. apply lookup_ge_None. rewrite Hl. by apply lookup_ge_None. }
    apply (markScopes_length a b sc).
Qed.

Lemma scopes_foldl_visit l : ∀ tc (i : nat) S0,
  scopes tc !! i = Some S0 →
  ∃ S, scopes (foldl visit tc l) !! i = Some S
       ∧ ∀ s, s ∈ S ↔
              s ∈ S0 ∨ ∃ n, n ∈ l ∧ startLineOf n = s ∧ s ≤ Z.of_nat i ≤ endLineOf n.
Proof.
  induction l as [|n l IH]; intros tc i S0 H0; cbn [foldl].
  - exists S0. split; [done|]. intros s. split; [by left|].
    intros [H|(n & Hn & _)]; [done|]. by apply elem_of_nil in Hn.
  - set (S1 := if bool_decide (startLineOf n ≤ Z.of_nat i ≤ endLineOf n)
               then {[startLineOf n]} ∪ S0 else S0).
    destruct (IH (visit tc n) i S1) as (S & HS & Hiff).
    { rewrite scopes_visit, markScopes_lookup, H0 by (unfold startLineOf; lia). done. }
    exists S. split; [done|]. intros s. rewrite Hiff. subst S1. split.
    + intros [H|(m & Hm & H1 & H2)].
      * case_bool_decide as Hd; [|by left].
        apply elem_of_union in H as [->%elem_of_singleton|H]; [|by left].
        right. exists n. split; [by left|done].
      * right. exists m. split; [by right|done].
    + intros [H|(m & [->|Hm]%elem_of_cons & H1 & H2)].
      * left. case_bool_decide; set_solver.
      * left. rewrite bool_decide_true by (by rewrite H1). set_solver.
      * right. by exists m.
Qed.

(** X3: After construction, slot [i] of the node index lists the visited
    nodes whose start row is [i], in the order of the walk (pre-order). *)
Theorem nodes_index_by_start_row fname src options (root : Node) :
  ∃ tc, NewTreeContext fname src options root = Ok tc
    ∧ nodes tc =
      (fun i => filter (fun n => startRow n = i) (visited (len (splitLines src) + 1) root))
      <$> seq 0 (S (length (splitLines src))).
Proof.
  destruct (NewTreeContext_ok fname src options root) as (tc & h & Hok & -> & _).
  eexists. split; [done|]. cbn [nodes set_header].
  rewrite walkTree_visited.
  assert (len (nodes (emptyContext fname src options)) = len (splitLines src) + 1) as ->.
  { unfold len. cbn. rewrite length_replicate. lia. }
  set (l := visited _ root).
  apply list_eq. intros i. rewrite list_lookup_fmap.
  destruct (decide (i < S (length (splitLines src)))%nat) as [Hi|Hi].
  - rewrite (nodes_foldl_visit l _ i []).
    + by rewrite lookup_seq_lt.
    + unfold emptyContext. cbn [nodes]. by apply lookup_replicate_2.
  - rewrite lookup_seq_ge by lia. cbn. apply lookup_ge_None.
    pose proof (foldl_visit_len_nodes l (emptyContext fname src options)) as Hl.
    unfold len in Hl. cbn [nodes emptyContext] in Hl. rewrite length_replicate in Hl. lia.
Qed.

(** X4: After construction, the scope set of line [i] holds exactly the start
    rows of the visited nodes whose rows span [i]. *)
Theorem scopes_index_membership fname src options (root : Node) :
  ∃ tc, NewTreeContext fname src options root = Ok tc
    ∧ ∀ (i : nat) Sc, scopes tc !! i = Some Sc →
        ∀ s, s ∈ Sc ↔
             ∃ n, n ∈ visited (len (splitLines src) + 1) root
                  ∧ startLineOf n = s ∧ s ≤ Z.of_nat i ≤ endLineOf n.
Proof.
  destruct (NewTreeContext_ok fname src options root) as (tc & h & Hok & -> & _).
  eexists. split; [done|]. cbn [scopes set_header].
  rewrite walkTree_visited.
  assert (len (nodes (emptyContext fname src options)) = len (splitLines src) + 1) as ->.
  { unfold len. cbn. rewrite length_replicate. lia. }
  intros i Sc HSc s.
  assert (i < S (length (splitLines src)))%nat as Hi.
  { apply lookup_lt_Some in HSc. rewrite foldl_visit_scopes_length in HSc.
    unfold emptyContext in HSc. cbn [scopes] in HSc. by rewrite length_replicate in HSc. }
  destruct (scopes_foldl_visit (visited (len (splitLines src) + 1) root)
              (emptyContext fname src options) i ∅) as (S & HS & Hiff).
  { unfold emptyContext. cbn [scopes]. by apply lookup_replicate_2. }
  assert (S = Sc) as -> by congruence.
  rewrite Hiff. split; [intros [H|H]; [set_solver|done]|by right].
Qed.

(** X5: After construction, the header interval of a line where a node of
    positive span starts begins at that line and is as long as the span of
    the last such node visited, cut to [HeaderMax] lines. *)
Theorem owner_header_clamped fname src options (root n : Node) (i : Z) :
  0 ≤ i ≤ len (splitLines src) →
  last (ownersAt i (visited (len (splitLines src) + 1) root)) = Some n →
  ∃ tc, NewTreeContext fname src options root = Ok tc
    ∧ header tc !! Z.to_nat i = Some [i; i + Z.min (sizeOf n) (HeaderMax options)].
Proof.
  intros Hi Hlast.
  destruct (NewTreeContext_ok fname src options root)
    as (tc & h & Hok & -> & Hlen & _ & Hlook & _).
  eexists. split; [done|]. cbn [header set_header].
  assert (len (nodes (emptyContext fname src options)) = len (splitLines src) + 1) as Hn0.
  { unfold len. cbn. rewrite length_replicate. lia. }
  assert (0 ≤ i < len (header (emptyContext fname src options))) as Hi'.
  { unfold len. cbn. rewrite length_replicate. unfold len in Hi. lia. }
  rewrite (Hlook i _ Hi (walkTree_header_last_owner root _ i Hi')).
  rewrite Hn0, Hlast.
  assert (n ∈ ownersAt i (visited (len (splitLines src) + 1) root)) as Hin.
  { apply last_Some in Hlast as [l' ->]. set_solver. }
  apply list_elem_of_filter in Hin as [[Hs Hsz] _].
  unfold candidate, finalizeHeader. rewrite Hs. f_equal.
  unfold sizeOf in *. destruct (Z.ltb_spec (HeaderMax options) (endLineOf n - startLineOf n));
    repeat f_equal; lia.
Qed.

Lemma owner_header_clamped_witness :
  ∃ tc, NewTreeContext "f.go" (textLines 4) defaultOptions twoOwners = Ok tc
    ∧ header tc !! Z.to_nat 0 = Some [0; 0 + Z.min (sizeOf (mkNode 0 1 [])) 10].
Proof.
  apply (owner_header_clamped "f.go" (textLines 4) defaultOptions twoOwners (mkNode 0 1 []) 0).
  - vm_compute. split; discriminate.
  - reflexivity.
Defined.

(** ** Scope lookups *)

Lemma foldl_max_end (ns : list Node) : ∀ (m : Z),
  (∀ n, n ∈ ns → endLineOf n ≤
     foldl (fun lastLine node =>
              if lastLine <? endLineOf node then endLineOf node else lastLine) m ns)
  ∧ m ≤ foldl (fun lastLine node =>
                 if lastLine <? endLineOf node then endLineOf node else lastLine) m ns
  ∧ (foldl (fun lastLine node =>
              if lastLine <? endLineOf node then endLineOf node else lastLine) m ns = m
     ∨ ∃ n, n ∈ ns ∧
         foldl (fun lastLine node =>
                  if lastLine <? endLineOf node then endLineOf node else lastLine) m ns
         = endLineOf n).
Proof.
  induction ns as [|x ns IH]; intros m; cbn [foldl].
  - split; [intros n Hn; by apply elem_of_nil in Hn|]. split; [lia|by left].
  - destruct (IH (if m <? endLineOf x then endLineOf x else m)) as (H1 & H2 & H3).
    split; [|split].
    + intros n [->|Hn]%elem_of_cons; [|by apply H1].
      destruct (Z.ltb_spec m (endLineOf x)); lia.
    + destruct (Z.ltb_spec m (endLineOf x)); lia.
    + destruct H3 as [H3|(n & Hn & H3)].
      * destruct (Z.ltb_spec m (endLineOf x)); [|by left].
        right. exists x. split; [by left|done].
      * right. exists n. split; [by right|done].
Qed.

(** X6: [getLastLineOfScope] returns its argument for an index outside the
    node index or a line where no node starts; otherwise it returns the
    greatest end row among the nodes starting at the line. *)
Theorem getLastLineOfScope_greatest_end (tc : TreeContext) (i : Z) :
  (¬ (0 ≤ i < len (nodes tc)) ∨ nodes tc !! Z.to_nat i = Some [] →
   getLastLineOfScope tc i = i)
  ∧ (∀ ns, 0 ≤ i → nodes tc !! Z.to_nat i = Some ns → ns ≠ [] →
       (∀ n, n ∈ ns → endLineOf n ≤ getLastLineOfScope tc i)
       ∧ ∃ n, n ∈ ns ∧ getLastLineOfScope tc i = endLineOf n).
Proof.
  unfold getLastLineOfScope. split.
  - intros [H|H].
    + destruct (_ || _) eqn:E; [done|]. exfalso. apply H. zbool_hyp E.
    + rewrite H. by destruct (_ || _).
  - intros ns Hi Hns Hne.
    assert (Z.of_nat (Z.to_nat i) < len (nodes tc)) as Hlt.
    { apply lookup_lt_Some in Hns. unfold len. lia. }
    assert ((i <? 0) || (len (nodes tc) <=? i) = false) as -> by zbool.
    rewrite Hns. destruct ns as [|x ns]; [done|].
    destruct (foldl_max_end (x :: ns) 0) as (H1 & H2 & H3).
    split; [done|].
    destruct H3 as [H3|H3]; [|done].
    exists x. split; [by left|]. rewrite H3.
    specialize (H1 x ltac:(by left)). rewrite H3 in H1. unfold endLineOf in *. lia.
Qed.

Lemma getLastLineOfScope_greatest_end_witness :
  (∀ n, n ∈ [mkNode 0 3 [mkNode 0 1 []]; mkNode 0 1 []] →
        endLineOf n ≤ getLastLineOfScope twoOwnersContext 0)
  ∧ ∃ n, n ∈ [mkNode 0 3 [mkNode 0 1 []]; mkNode 0 1 []]
         ∧ getLastLineOfScope twoOwnersContext 0 = endLineOf n.
Proof.
  apply (proj2 (getLastLineOfScope_greatest_end twoOwnersContext 0)).
  - lia.
  - reflexivity.
  - discriminate.
Defined.

(** ** Ancestor expansion, further *)

(** X7: The memo makes ancestor expansion idempotent: once a call for line
    [i] has returned, a second call for [i] changes nothing, whatever
    the iteration order. *)
Theorem addParentScopes_idempotent (o o' : IterOrder) (fuel fuel' : nat) (i : Z)
    (tc tc' : TreeContext) :
  addParentScopes o fuel i tc = Ok tc' →
  addParentScopes o' fuel' i tc' = Ok tc'.
Proof.
  intros H. apply addParentScopes_grows in H as [[He _] Hin].
  apply addParentScopes_done.
  assert (scopes tc' = scopes tc) as -> by (by destruct He as (S & D & -> & _ & _)).
  destruct (decide (0 ≤ i < len (scopes tc))); [right; auto|by left].
Qed.

Lemma addParentScopes_idempotent_witness :
  addParentScopes descending 1 0
    (built (addParentScopes ascending 5 0 twoOwnersContext) twoOwnersContext)
  = Ok (built (addParentScopes ascending 5 0 twoOwnersContext) twoOwnersContext).
Proof.
  apply (addParentScopes_idempotent ascending descending 5 1 0 twoOwnersContext).
  vm_compute. reflexivity.
Defined.

(** ** Lines of interest *)

(** X8: [AddLinesOfInterest] unions the given set into the lines of interest
    and touches nothing else; adding two sets one after the other is
    adding their union. *)
Theorem AddLinesOfInterest_union (o o' o'' : IterOrder) (A B : gset Z) (tc : TreeContext) :
  AddLinesOfInterest o A tc = set_linesOfInterest (A ∪ linesOfInterest tc) tc
  ∧ AddLinesOfInterest o' B (AddLinesOfInterest o A tc) = AddLinesOfInterest o'' (A ∪ B) tc.
Proof.
  split; [apply AddLinesOfInterest_eq|].
  rewrite !AddLinesOfInterest_eq. cbn.
  assert (B ∪ (A ∪ linesOfInterest tc) = A ∪ B ∪ linesOfInterest tc) as -> by set_solver.
  by destruct tc.
Qed.

(** ** Descendant preview of a small scope *)

(** X9: On a line whose scope spans fewer than five lines, [addChildContext]
    shows every line of the scope that lies in the file, and nothing
    else changes. *)
Theorem small_scope_fully_revealed (o : IterOrder) (tc : TreeContext) (i : Z) :
  0 ≤ i < len (nodes tc) →
  default [] (nodes tc !! Z.to_nat i) ≠ [] →
  0 ≤ getLastLineOfScope tc i - i < 5 →
  ∃ S, addChildContext o i tc = Ok (set_showLines S tc)
       ∧ ∀ l, l ∈ S ↔
              l ∈ showLines tc
              ∨ (i ≤ l ≤ getLastLineOfScope tc i ∧ l < numLines tc).
Proof.
  intros Hi Hne HS. eexists. unfold addChildContext.
  assert ((i <? 0) || (len (nodes tc) <=? i) = false) as -> by zbool.
  destruct (default [] (nodes tc !! Z.to_nat i)) as [|n ns] eqn:En; [done|].
  assert ((len (n :: ns) =? 0) = false) as ->
    by (apply Z.eqb_neq; unfold len; cbn [length]; lia).
  assert ((getLastLineOfScope tc i - i <? 0) = false) as -> by (apply Z.ltb_ge; lia).
  assert ((getLastLineOfScope tc i - i <? 5) = true) as -> by (apply Z.ltb_lt; lia).
  rewrite showRange_eq. split; [done|].
  intros l. rewrite elem_of_union, elem_of_list_to_set, elem_of_seqZ.
  split.
  - intros [H|H]; [right; lia|by left].
  - intros [H|H]; [by right|left; lia].
Qed.

Lemma small_scope_fully_revealed_witness :
  ∃ S, addChildContext ascending 0 twoOwnersContext = Ok (set_showLines S twoOwnersContext)
       ∧ ∀ l, l ∈ S ↔
              l ∈ showLines twoOwnersContext
              ∨ (0 ≤ l ≤ getLastLineOfScope twoOwnersContext 0
                 ∧ l < numLines twoOwnersContext).
Proof.
  apply (small_scope_fully_revealed ascending twoOwnersContext 0).
  - vm_compute. split; [discriminate|reflexivity].
  - vm_compute. discriminate.
  - vm_compute. split; [discriminate|reflexivity].
Defined.

(** ** Gap closing, further *)

Lemma fillGaps_fills (l : list Z) : ∀ (c : gset Z) (a : Z),
  StronglySorted Z.lt l → (∀ z, z ∈ l → z ∈ c) →
  a ∈ l → a + 2 ∈ l → a + 1 ∈ fillGaps l c.
Proof.
  induction l as [|x rest IH]; intros c a Hs Hc Ha Ha2; [by apply elem_of_nil in Ha|].
  apply StronglySorted_inv in Hs as [Hs Hall]. rewrite Forall_forall in Hall.
  cbn [fillGaps]. destruct rest as [|y r].
  { apply elem_of_cons in Ha as [->|Ha]; [|by apply elem_of_nil in Ha].
    apply elem_of_cons in Ha2 as [?|Ha2]; [lia|by apply elem_of_nil in Ha2]. }
  assert (x < y) as Hxy by (apply Hall; by left).
  apply elem_of_cons in Ha as [->|Ha].
  - apply elem_of_cons in Ha2 as [?|Ha2]; [lia|].
    apply fillGaps_subseteq.
    apply elem_of_cons in Ha2 as [Hy|Ha2].
    + rewrite <- Hy. replace (x + 2 - x) with 2 by lia. cbn. set_solver.
    + apply StronglySorted_inv in Hs as [_ Hally]. rewrite Forall_forall in Hally.
      specialize (Hally _ Ha2).
      assert (y = x + 1) as -> by lia.
      assert (x + 1 ∈ c) by (apply Hc; right; by left).
      destruct (_ =? _); set_solver.
  - apply elem_of_cons in Ha2 as [?|Ha2]; [specialize (Hall _ Ha); lia|].
    apply IH; [done| |done|done].
    intros z Hz. assert (z ∈ c) by (apply Hc; by right).
    destruct (_ =? _); set_solver.
Qed.

Lemma fillGaps_only_gaps (l : list Z) : ∀ (c : gset Z) (j : Z),
  j ∈ fillGaps l c → j ∈ c ∨ (j - 1 ∈ l ∧ j + 1 ∈ l).
Proof.
  induction l as [|x rest IH]; intros c j; cbn [fillGaps]; [by left|].
  destruct rest as [|y r]; [by left|].
  intros H. apply IH in H as [H|[H1 H2]].
  - destruct (Z.eqb_spec (y - x) 2) as [E|_]; [|by left].
    apply elem_of_union in H as [->%elem_of_singleton|H]; [|by left].
    right. split.
    + replace (x + 1 - 1) with x by lia. by left.
    + replace (x + 1 + 1) with y by lia. right. by left.
  - right. split; by right.
Qed.

Lemma pickBlanks_only_blanks tc rest : ∀ i c j,
  0 ≤ i →
  (∀ k, rest !! k = lines tc !! (Z.to_nat i + k)%nat) →
  j ∈ pickBlanks tc i rest c →
  j ∈ c
  ∨ (blankAt tc j = true ∧ textAt tc (j - 1) = true
     ∧ j - 1 ∈ pickBlanks tc i rest c).
Proof.
  induction rest as [|line rest IH]; intros i c j Hi Hrest; cbn [pickBlanks]; [by left|].
  match goal with |- context [pickBlanks tc (i + 1) rest ?x] => set (c' := x) end.
  intros H.
  assert (lines tc !! Z.to_nat i = Some line) as Hl.
  { symmetry. transitivity ((line :: rest) !! 0%nat); [done|].
    rewrite Hrest. f_equal. lia. }
  apply IH in H as [H|H]; [|by right| lia |].
  2:{ intros k. transitivity ((line :: rest) !! S k); [done|].
      rewrite Hrest. f_equal. lia. }
  subst c'.
  destruct (bool_decide (i ∈ c)) eqn:Ein; cbn [andb] in H; [|by left].
  destruct (negb (isBlank line)) eqn:Et; cbn [andb] in H; [|by left].
  destruct (i <? numLines tc - 2); cbn [andb] in H; [|by left].
  destruct (i + 1 <? len (lines tc)) eqn:Elen; cbn [andb] in H; [|by left].
  destruct (isBlank (default EmptyString (lines tc !! Z.to_nat (i + 1)))) eqn:Eb; [|by left].
  apply elem_of_union in H as [->%elem_of_singleton|H]; [|by left].
  right. replace (i + 1 - 1) with i by lia.
  split; [|split].
  - unfold blankAt.
    destruct (lines tc !! Z.to_nat (i + 1)) as [l'|] eqn:El'; [done|].
    apply lookup_ge_None in El'. unfold len in Elen. lia.
  - unfold textAt. by rewrite Hl.
  - apply pickBlanks_subseteq. apply bool_decide_eq_true in Ein.
    destruct (_ && _); set_solver.
Qed.

(** X10: A hidden line between two shown lines is shown after gap closing. *)
Theorem single_line_gap_closed (o : IterOrder) (tc : TreeContext) (a : Z) :
  a ∈ showLines tc → a + 2 ∈ showLines tc →
  a + 1 ∈ showLines (closeSmallGaps o tc).
Proof.
  intros Ha Ha2. rewrite closeSmallGaps_eq. cbn [showLines set_showLines].
  apply pickBlanks_subseteq. apply fillGaps_fills.
  - apply mapKeysSorted_strict.
  - intros z. by rewrite mapKeysSorted_elem.
  - by apply mapKeysSorted_elem.
  - by apply mapKeysSorted_elem.
Qed.

Lemma single_line_gap_closed_witness : 3 + 1 ∈ showLines (closeSmallGaps descending shown35).
Proof.
  apply (single_line_gap_closed descending shown35 3);
    apply (bool_decide_unpack _); vm_compute; exact I.
Defined.

(** X11: Gap closing adds nothing but one-line gaps and blank lines: a line it
    adds lies between two lines shown before, or is a blank line right
    after a shown line of text. *)
Theorem closeSmallGaps_adds_only_gaps_and_blanks (o : IterOrder) (tc : TreeContext) (j : Z) :
  j ∈ showLines (closeSmallGaps o tc) →
  j ∈ showLines tc
  ∨ (j - 1 ∈ showLines tc ∧ j + 1 ∈ showLines tc)
  ∨ (blankAt tc j = true ∧ textAt tc (j - 1) = true
     ∧ j - 1 ∈ showLines (closeSmallGaps o tc)).
Proof.
  rewrite closeSmallGaps_eq. cbn [showLines set_showLines]. intros H.
  apply pickBlanks_only_blanks in H as [H|H]; [|by right; right|done|done].
  apply fillGaps_only_gaps in H as [H|[H1 H2]]; [by left|].
  right. left. by rewrite !mapKeysSorted_elem in *.
Qed.

Lemma closeSmallGaps_adds_only_gaps_and_blanks_witness :
  4 ∈ showLines shown35
  ∨ (4 - 1 ∈ showLines shown35 ∧ 4 + 1 ∈ showLines shown35)
  ∨ (blankAt shown35 4 = true ∧ textAt shown35 (4 - 1) = true
     ∧ 4 - 1 ∈ showLines (closeSmallGaps ascending shown35)).
Proof.
  apply (closeSmallGaps_adds_only_gaps_and_blanks ascending shown35 4).
  apply (bool_decide_unpack _). vm_compute. exact I.
Defined.

(** ** Padding and margin *)





(** ** No line of interest *)

Lemma walkTree_keeps_sets root tc :
  showLines (walkTree root tc) = showLines tc
  ∧ linesOfInterest (walkTree root tc) = linesOfInterest tc
  ∧ doneParentScopes (walkTree root tc) = doneParentScopes tc
  ∧ outputLines (walkTree root tc) = outputLines tc
  ∧ lines (walkTree root tc) = lines tc.
Proof.
  rewrite walkTree_visited.
  rewrite (foldl_visit_shape (visited (len (nodes tc)) root) tc). done.
Qed.

(** X14: A context for which [AddLinesOfInterest] was never called has no
    line to show however often [AddContext] runs, whatever the margin and
    last-line options say, and [Format] renders it as the empty string. *)
Theorem no_interest_no_output fname src options (root : Node) (o : IterOrder) (k : nat) :
  ∃ tc, NewTreeContext fname src options root = Ok tc
    ∧ runOps o (replicate k OpAddContext) tc = Ok tc
    ∧ showLines tc = ∅
    ∧ Format tc = EmptyString.
Proof.
  destruct (NewTreeContext_ok fname src options root) as (tc & h & Hok & -> & _).
  eexists. split; [done|].
  destruct (walkTree_keeps_sets root (emptyContext fname src options))
    as (Hs & Hl & _).
  set (tc := set_header h _).
  assert (showLines tc = ∅) as Hshow by (subst tc; cbn; by rewrite Hs).
  assert (linesOfInterest tc = ∅) as Hloi by (subst tc; cbn; by rewrite Hl).
  assert (AddContext o tc = Ok tc) as Hnoop.
  { unfold AddContext. by rewrite Hloi, size_empty. }
  split; [|split; [done|]].
  - clear -Hnoop. induction k as [|k IH]; [done|].
    cbn [replicate]. unfold runOps in *. cbn [foldM runOp]. by rewrite Hnoop.
  - unfold Format, FormatChunks. by rewrite Hshow, size_empty.
Qed.

(** ** Match engine, further *)

Lemma grepLines_spec (E : RegexEngine) (re : regex E) (tc0 : TreeContext) rest :
  ∀ i found M,
  0 ≤ i →
  (∀ k, rest !! k = lines tc0 !! (Z.to_nat i + k)%nat) →
  ∃ found' M',
    grepLines E re i rest found (set_outputLines M tc0) = (found', set_outputLines M' tc0)
    ∧ (∀ j, j ∈ found' ↔ j ∈ found ∨ (i ≤ j ∧ matchesAt E re tc0 j = true))
    ∧ (∀ j, M' !! j =
            if color tc0 && ((i <=? j) && matchesAt E re tc0 j)
            then highlight E re <$> lines tc0 !! Z.to_nat j
            else M !! j).
Proof.
  induction rest as [|line rest IH]; intros i found M Hi Hrest; cbn [grepLines].
  - exists found, M. split; [done|]. split.
    + intros j. split; [by left|]. intros [H|[Hj Hm]]; [done|].
      unfold matchesAt in Hm. specialize (Hrest (Z.to_nat j - Z.to_nat i)%nat).
      replace (Z.to_nat i + (Z.to_nat j - Z.to_nat i))%nat with (Z.to_nat j) in Hrest by lia.
      rewrite <- Hrest in Hm. cbn in Hm. by rewrite andb_false_r in Hm.
    + intros j. destruct (color tc0); [|done]. cbn [andb].
      destruct (Z.leb_spec i j); [|done]. cbn [andb].
      unfold matchesAt. specialize (Hrest (Z.to_nat j - Z.to_nat i)%nat).
      replace (Z.to_nat i + (Z.to_nat j - Z.to_nat i))%nat with (Z.to_nat j) in Hrest by lia.
      rewrite <- Hrest. cbn. by rewrite andb_false_r.
  - assert (lines tc0 !! Z.to_nat i = Some line) as Hl.
    { symmetry. transitivity ((line :: rest) !! 0%nat); [done|].
      rewrite Hrest. f_equal. lia. }
    assert (∀ k, rest !! k = lines tc0 !! (Z.to_nat (i + 1) + k)%nat) as Hrest'.
    { intros k. transitivity ((line :: rest) !! S k); [done|].
      rewrite Hrest. f_equal. lia. }
    assert (matchesAt E re tc0 i = bool_decide (is_Some (findStringIndex E re line))) as Hmi.
    { unfold matchesAt. rewrite Hl. by assert ((0 <=? i) = true) as -> by lia. }
    destruct (findStringIndex E re line) as [p|] eqn:Ef.
    + rewrite bool_decide_true in Hmi by (by eexists).
      set (M1 := if color tc0 then <[i := highlight E re line]> M else M).
      assert ((if color (set_outputLines M tc0)
               then set_outputLines
                      (<[i := highlight E re line]> (outputLines (set_outputLines M tc0)))
                      (set_outputLines M tc0)
               else set_outputLines M tc0) = set_outputLines M1 tc0) as Hstate.
      { subst M1. cbn [color set_outputLines outputLines].
        destruct (color tc0) eqn:Ec; by destruct tc0. }
      unfold highlight in Hstate at 1. rewrite Hstate. clear Hstate.
      destruct (IH (i + 1) ({[i]} ∪ found) M1 ltac:(lia) Hrest')
        as (found' & M' & Hg & Hf & HM).
      exists found', M'. split; [done|]. split.
      * intros j. rewrite Hf. split.
        -- intros [[->%elem_of_singleton|H]%elem_of_union|[Hj Hm]].
           ++ right. split; [lia|done].
           ++ by left.
           ++ right. split; [lia|done].
        -- intros [H|[Hj Hm]]; [left; set_solver|].
           destruct (decide (j = i)) as [->|Hne]; [left; set_solver|].
           right. split; [lia|done].
      * intros j. rewrite HM. subst M1.
        destruct (color tc0) eqn:Ec; cbn [andb]; [|done].
        destruct (decide (j = i)) as [->|Hne].
        -- assert ((i + 1 <=? i) = false) as -> by lia.
           assert ((i <=? i) = true) as -> by lia. cbn [andb].
           rewrite Hmi, Hl, lookup_insert_eq. done.
        -- rewrite lookup_insert_ne by done.
           destruct (Z.leb_spec (i + 1) j); destruct (Z.leb_spec i j); try lia; done.
    + rewrite bool_decide_false in Hmi by (by intros [? ?]).
      destruct (IH (i + 1) found M ltac:(lia) Hrest') as (found' & M' & Hg & Hf & HM).
      exists found', M'. split; [done|]. split.
      * intros j. rewrite Hf. split.
        -- intros [H|[Hj Hm]]; [by left|right]. split; [lia|done].
        -- intros [H|[Hj Hm]]; [by left|].
           destruct (decide (j = i)) as [->|Hne]; [congruence|].
           right. split; [lia|done].
      * intros j. rewrite HM.
        destruct (color tc0) eqn:Ec; cbn [andb]; [|done].
        destruct (decide (j = i)) as [->|Hne].
        -- assert ((i + 1 <=? i) = false) as -> by lia. rewrite Hmi. cbn [andb].
           by rewrite andb_false_r.
        -- destruct (Z.leb_spec (i + 1) j); destruct (Z.leb_spec i j); try lia; done.
Qed.

Lemma Grep_invalid (E : RegexEngine) pat ignoreCase tc :
  compile E (effectivePattern pat ignoreCase) = None →
  Grep E pat ignoreCase tc = (Err InvalidPattern, tc).
Proof. intros H. unfold Grep. by rewrite H. Qed.

(** Nothing between the panic and the caller catches it. *)
Lemma grepThen_invalid {A} (E : RegexEngine) pat ignoreCase
    (k : gset Z → TreeContext → res A) tc :
  compile E (effectivePattern pat ignoreCase) = None →
  grepThen E pat ignoreCase k tc = Err InvalidPattern.
Proof. intros H. unfold grepThen. by rewrite (Grep_invalid _ _ _ _ H). Qed.

(** With a pattern that compiles the call returns, and the context it
    leaves differs from the one it found in the highlight map only. *)
Lemma grepThen_valid {A} (E : RegexEngine) pat ignoreCase
    (k : gset Z → TreeContext → res A) tc re :
  compile E (effectivePattern pat ignoreCase) = Some re →
  ∃ found M, grepThen E pat ignoreCase k tc = k found (set_outputLines M tc).
Proof.
  intros H. unfold grepThen, Grep. rewrite H.
  destruct (grepLines_spec E re tc (lines tc) 0 ∅ (outputLines tc) ltac:(lia) ltac:(done))
    as (found & M & Hg & _).
  assert (set_outputLines (outputLines tc) tc = tc) as Eid by (by destruct tc).
  rewrite Eid in Hg. rewrite Hg. by exists found, M.
Qed.

Lemma wfIndex_set_outputLines M tc : wfIndex tc → wfIndex (set_outputLines M tc).
Proof. by destruct tc. Qed.




(** X15: With a pattern that compiles, [Grep] returns exactly the indices of
    the lines the pattern matches; it writes the highlight map only, and
    there only the entries of the matching lines when colour is on: lines
    of interest, lines to show and the index are left as they were, and
    with colour off the context is unchanged. *)
Theorem Grep_returns_matching_lines (E : RegexEngine) (pat : string) (ignoreCase : bool)
    (tc : TreeContext) (re : regex E) :
  compile E (effectivePattern pat ignoreCase) = Some re →
  ∃ found M,
    Grep E pat ignoreCase tc = (Ok found, set_outputLines M tc)
    ∧ (∀ j, j ∈ found ↔ matchesAt E re tc j = true)
    ∧ (∀ j, M !! j =
            if color tc && matchesAt E re tc j
            then highlight E re <$> lines tc !! Z.to_nat j
            else outputLines tc !! j)
    ∧ (color tc = false → set_outputLines M tc = tc).
Proof.
  intros Hc. unfold Grep. rewrite Hc.
  destruct (grepLines_spec E re tc (lines tc) 0 ∅ (outputLines tc) ltac:(lia) ltac:(done))
    as (found & M & Hg & Hf & HM).
  assert (set_outputLines (outputLines tc) tc = tc) as Eid by (by destruct tc).
  rewrite Eid in Hg. rewrite Hg.
  exists found, M. split; [done|]. split; [|split].
  - intros j. rewrite Hf. split.
    + intros [H|[_ H]]; [by apply elem_of_empty in H|done].
    + intros H. right. split; [|done].
      unfold matchesAt in H. apply andb_prop in H as [H _]. lia.
  - intros j. rewrite HM.
    destruct (color tc); cbn [andb]; [|done].
    destruct (Z.leb_spec 0 j); [done|].
    unfold matchesAt. by assert ((0 <=? j) = false) as -> by lia.
  - intros Hcol. rewrite <- Eid at 2. f_equal. apply map_eq. intros j.
    rewrite HM, Hcol. done.
Qed.

Lemma Grep_returns_matching_lines_witness :
  ∃ found M,
    Grep literalEngine "x" false blanksContext = (Ok found, set_outputLines M blanksContext)
    ∧ (∀ j, j ∈ found ↔ matchesAt literalEngine "x" blanksContext j = true)
    ∧ (∀ j, M !! j =
            if color blanksContext && matchesAt literalEngine "x" blanksContext j
            then highlight literalEngine "x" <$> lines blanksContext !! Z.to_nat j
            else outputLines blanksContext !! j)
    ∧ (color blanksContext = false → set_outputLines M blanksContext = blanksContext).
Proof.
  apply (Grep_returns_matching_lines literalEngine "x" false blanksContext "x").
  reflexivity.
Defined.

(** ** Ancestor headers *)

Lemma grows_set_showLines S tc : showLines tc ⊆ S → grows tc (set_showLines S tc).
Proof. intros H. apply grows_extends; [by apply extends_set_showLines|done]. Qed.

Lemma childLoop_grows o limit cs : ∀ tc tc',
  childLoop o limit cs tc = Ok tc' → grows tc tc'.
Proof.
  induction cs as [|c cs IH]; intros tc tc'; cbn [childLoop].
  - intros [= <-]. apply grows_refl.
  - destruct (limit <? _); [intros [= <-]; apply grows_refl|].
    destruct (addParentScopes _ _ _ _) as [tc1|] eqn:E; [|done]. cbn [bind].
    intros H%IH. apply addParentScopes_grows in E as [E _]. by eapply grows_trans.
Qed.

Lemma addChildContext_grows o i tc tc' : addChildContext o i tc = Ok tc' → grows tc tc'.
Proof.
  unfold addChildContext.
  repeat (case_match; try (intros [= <-]; apply grows_refl)).
  - intros [= <-]. rewrite showRange_eq. apply grows_set_showLines. set_solver.
  - apply childLoop_grows.
Qed.

Lemma childPass_grows o tc tc' : childPass o tc = Ok tc' → grows tc tc'.
Proof.
  unfold childPass. destruct (childContext tc); [|intros [= <-]; apply grows_refl].
  apply (foldM_inv (grows tc)); [apply grows_refl|].
  intros a b a' Ha H%addChildContext_grows. by eapply grows_trans.
Qed.

Lemma lastLinePass_grows o tc tc' : lastLinePass o tc = Ok tc' → grows tc tc'.
Proof.
  unfold lastLinePass. destruct (lastLine tc); [|intros [= <-]; apply grows_refl].
  intros H. apply addParentScopes_grows in H as [H _].
  eapply grows_trans; [|exact H].
  unfold show. apply grows_set_showLines. set_solver.
Qed.



(** ** Renderer, further *)

Lemma omap_lineIndex_runs tc (l : list string) : ∀ i,
  omap lineIndex (flat_map (chunksOfLine tc) (zip (seqZ i (len l)) l))
  = filter (fun j => j ∈ showLines tc) (seqZ i (len l)).
Proof.
  induction l as [|line l IH]; intros i; [done|].
  unfold len. cbn [length]. rewrite seqZ_cons by lia.
  replace (Z.pred (Z.of_nat (S (length l)))) with (len l) by (unfold len; lia).
  cbn [zip zip_with flat_map]. rewrite omap_app, IH, filter_cons.
  unfold chunksOfLine. cbn [fst snd].
  destruct (decide (i ∈ showLines tc)) as [Hs|Hs].
  - rewrite bool_decide_true by done. done.
  - rewrite bool_decide_false by done.
    by destruct (startsHiddenRun tc i).
Qed.

(** X17: When some line is to be shown, [Format] prints the shown lines of the
    file, each once and in ascending order; indices of lines to show that
    are not lines of the file are not printed. *)
Theorem Format_prints_shown_lines_in_order (tc : TreeContext) :
  showLines tc ≠ ∅ →
  omap lineIndex (FormatChunks tc)
  = filter (fun j => j ∈ showLines tc) (seqZ 0 (len (lines tc))).
Proof.
  intros Hne. unfold FormatChunks.
  destruct (Z.eqb_spec (Z.of_nat (size (showLines tc))) 0) as [Hz|_].
  { exfalso. apply Hne, leibniz_equiv, size_empty_inv. lia. }
  rewrite omap_app.
  assert (omap lineIndex (if color tc then [ChunkReset] else []) = []) as ->
    by (by destruct (color tc)).
  rewrite formatLines_runs; [apply omap_lineIndex_runs|lia|].
  intros H0. by rewrite bool_decide_false.
Qed.

Lemma Format_prints_shown_lines_in_order_witness :
  omap lineIndex (FormatChunks shown0156)
  = filter (fun j => j ∈ showLines shown0156) (seqZ 0 (len (lines shown0156))).
Proof.
  apply (Format_prints_shown_lines_in_order shown0156).
  intros H.
  assert (0 ∈ showLines shown0156) as H0
    by (apply (bool_decide_unpack _); vm_compute; exact I).
  rewrite H in H0. by apply elem_of_empty in H0.
Defined.

Lemma formatLines_no_adjacent_markers tc rest : ∀ i pe,
  (pe = false → formatLines tc i rest pe !! 0%nat ≠ Some ChunkEllipsis)
  ∧ ∀ k, formatLines tc i rest pe !! k = Some ChunkEllipsis →
         formatLines tc i rest pe !! S k ≠ Some ChunkEllipsis.
Proof.
  induction rest as [|line rest IH]; intros i pe; cbn [formatLines]; [done|].
  destruct (bool_decide (i ∈ showLines tc)).
  - split; [done|]. intros [|k]; [done|]. cbn. apply (IH (i + 1) true).
  - destruct pe.
    + split; [done|]. intros [|k]; cbn.
      * intros _. by apply (IH (i + 1) false).
      * apply (IH (i + 1) false).
    + apply (IH (i + 1) false).
Qed.

(** X18: [Format] never writes two ellipsis markers in a row. *)
Theorem Format_no_adjacent_markers (tc : TreeContext) (k : nat) :
  FormatChunks tc !! k = Some ChunkEllipsis →
  FormatChunks tc !! S k ≠ Some ChunkEllipsis.
Proof.
  unfold FormatChunks. destruct (_ =? 0); [done|].
  destruct (color tc); cbn [app].
  - destruct k as [|k]; [done|]. cbn. apply formatLines_no_adjacent_markers.
  - apply formatLines_no_adjacent_markers.
Qed.

Lemma Format_no_adjacent_markers_witness :
  FormatChunks shown0156 !! 3%nat ≠ Some ChunkEllipsis.
Proof.
  apply (Format_no_adjacent_markers shown0156 2). reflexivity.
Defined.

(** ** The last line *)



(** ** Shape of a constructed context *)

Lemma finalizeHeader_length hmax i hs : length (finalizeHeader hmax i hs) = 2%nat.
Proof. unfold finalizeHeader. by destruct hs as [|a [|b r]]. Qed.

(** X20: [NewTreeContext] returns a context whose three index slices have one
    slot more than the file has lines, whose [numLines] is that number of
    slots, whose header slots all hold a pair, and whose sets of lines to
    show, lines of interest and expanded lines are empty. *)
Theorem constructed_context_shape fname src options (root : Node) :
  ∃ tc, NewTreeContext fname src options root = Ok tc
    ∧ lines tc = splitLines src
    ∧ numLines tc = len (lines tc) + 1
    ∧ len (nodes tc) = numLines tc
    ∧ len (scopes tc) = numLines tc
    ∧ len (header tc) = numLines tc
    ∧ Forall (fun hs => length hs = 2%nat) (header tc)
    ∧ showLines tc = ∅ ∧ linesOfInterest tc = ∅ ∧ doneParentScopes tc = ∅
    ∧ outputLines tc = ∅.
Proof.
  destruct (NewTreeContext_ok fname src options root)
    as (tc & h & Hok & -> & Hlen & Hsc & Hlook & _).
  eexists. split; [done|].
  destruct (walkTree_keeps_sets root (emptyContext fname src options))
    as (Hs & Hl & Hd & Ho & Hli).
  pose proof (foldl_visit_shape (visited (len (nodes (emptyContext fname src options))) root)
                (emptyContext fname src options)) as Hshape.
  rewrite <- walkTree_visited in Hshape.
  assert (numLines (walkTree root (emptyContext fname src options))
          = len (splitLines src) + 1) as Hnum by (rewrite Hshape; reflexivity).
  cbn [lines numLines nodes scopes header showLines linesOfInterest doneParentScopes
       outputLines set_header].
  rewrite Hli, Hnum, Hs, Hl, Hd, Ho.
  repeat split; try done.
  - rewrite walkTree_visited, foldl_visit_len_nodes. unfold len. cbn.
    rewrite length_replicate. lia.
  - unfold len. cbn [scopes set_header] in Hsc. rewrite Hsc. lia.
  - unfold len. rewrite Hlen. lia.
  - apply Forall_lookup. intros i hs Hi.
    assert (i < length h)%nat as Hlt by (by apply lookup_lt_Some in Hi).
    assert (length (header (walkTree root (emptyContext fname src options))) = length h)
      as Hlh.
    { pose proof (len_header_foldl_visit
                    (visited (len (nodes (emptyContext fname src options))) root)
                    (emptyContext fname src options)) as Hl'.
      rewrite <- walkTree_visited in Hl'. unfold len in Hl'. cbn in Hl'.
      rewrite length_replicate in Hl'. lia. }
    destruct (header (walkTree root (emptyContext fname src options)) !! i) as [hs0|] eqn:E0.
    2:{ apply lookup_ge_None in E0. lia. }
    specialize (Hlook (Z.of_nat i) hs0). rewrite Nat2Z.id in Hlook.
    rewrite Hlook in Hi; [|unfold len; lia|done].
    injection Hi as <-. apply finalizeHeader_length.
Qed.

(** ** What [AddContext] leaves alone *)

Lemma AddContext_grows o tc tc' : AddContext o tc = Ok tc' → grows tc tc'.
Proof.
  intros H.
  destruct (decide (Z.of_nat (size (linesOfInterest tc)) = 0)) as [Hz|Hnz].
  { unfold AddContext in H. rewrite Hz in H. injection H as <-. apply grows_refl. }
  destruct (AddContext_stages _ _ _ H Hnz) as (t1 & t2 & t3 & E1 & E2 & E3 & ->).
  eapply grows_trans.
  { apply (grows_extends tc (padPass o (seedPass o tc))).
    - eapply extends_trans; [apply seedPass_extends|apply padPass_extends].
    - unfold padPass. destruct (0 <? _); [rewrite padLines_eq|]; by rewrite seedPass_eq. }
  eapply grows_trans; [by eapply lastLinePass_grows|].
  eapply grows_trans.
  { unfold parentPass in E2. destruct (parentContext t1).
    - by apply parentLoop_grows in E2 as [G _].
    - injection E2 as <-. apply grows_refl. }
  eapply grows_trans; [by eapply childPass_grows|].
  apply grows_extends.
  - eapply extends_trans; [apply marginPass_extends|apply closeSmallGaps_extends].
  - rewrite closeSmallGaps_eq. unfold marginPass.
    destruct (0 <? _); [by rewrite showRange_eq|done].
Qed.



(** ** The line store *)

Lemma splitLines_nonempty s : splitLines s ≠ [].
Proof. destruct s as [|c s]; cbn; [done|]. destruct (Ascii.eqb c _); [done|]. by case_match. Qed.

(** X22: Splitting a source at its newlines loses nothing: the lines hold no
    newline, there is at least one, and joining them with newlines gives
    the source back. *)
Theorem splitLines_join (s : string) :
  String.concat newline (splitLines s) = s
  ∧ Forall (fun l => noNewline l = true) (splitLines s)
  ∧ (1 ≤ length (splitLines s))%nat.
Proof.
  induction s as [|c s (IH1 & IH2 & IH3)]; [by repeat constructor|].
  cbn [splitLines]. destruct (Ascii.eqb c "010") eqn:Ec.
  - apply Ascii.eqb_eq in Ec as ->. split; [|split].
    + pose proof (splitLines_nonempty s) as Hne.
      cbn [String.concat]. destruct (splitLines s) as [|l ls]; [done|].
      by rewrite IH1.
    + by constructor.
    + cbn. lia.
  - destruct (splitLines s) as [|l ls] eqn:E; [cbn in IH3; lia|].
    split; [|split].
    + destruct ls as [|l' ls']; cbn [String.concat] in *; by rewrite <- IH1.
    + apply Forall_cons in IH2 as [Hl Hls]. constructor; [|done].
      cbn [noNewline]. by rewrite Ec, Hl.
    + cbn. lia.
Qed.
